(** * NihonGo text-to-speech helper: a shallow embedding and its properties

    The repository holds two near-identical copies of one browser script:
    [src/data/tts.js] and an unnamed variant ([src/unnamed/part_000]).
    Both are embedded below, [Tts] and [Part000], over a common model of
    JavaScript strings, regular expressions, the timer queue and the
    speech-synthesis capability of the browser.

    - [JsString], [Regex]: strings as UTF-16 code units, the backtracking
      matcher and the global replacement.
    - [Normalizer]: [cleanJapaneseText] and [extractJapaneseOnly].
    - [Browser]: the module variables, the console, the timers and the
      capability, with the state-and-exception monad the statements of
      the scripts run in.
    - [Tts], [Part000]: [speakJapanese], its delayed action and utterance
      handlers, [stopSpeech] and [isTTSSpeaking] of each file.
    - [EventLoop]: host calls, passing time and notifications of the
      capability, applied to a page.

    The voice logging of [initTTS] at page load touches none of the
    state above and is left out. *)

From Stdlib Require Import List Bool Arith NArith Lia String Ascii QArith.
Import ListNotations.
Close Scope Q_scope.

(** ** JavaScript strings *)

(** A JavaScript string is a sequence of UTF-16 code units.  None of the
    regular expressions of the script carries the [u] flag, so every
    string operation below works code unit by code unit. *)
Module JsString.

Definition jsstring := list N.

Local Open Scope N_scope.

(** Decoding of a UTF-8 byte sequence into UTF-16 code units; only used
    to write string literals of the source in a readable way. *)
Fixpoint utf16_of_utf8 (bs : list N) : jsstring :=
  match bs with
  | [] => []
  | b0 :: r0 =>
    if b0 <? 0x80 then b0 :: utf16_of_utf8 r0
    else if b0 <? 0xE0 then
      match r0 with
      | b1 :: r1 =>
        N.lor (N.shiftl (N.land b0 0x1F) 6) (N.land b1 0x3F) :: utf16_of_utf8 r1
      | [] => []
      end
    else if b0 <? 0xF0 then
      match r0 with
      | b1 :: b2 :: r2 =>
        N.lor (N.shiftl (N.land b0 0x0F) 12)
              (N.lor (N.shiftl (N.land b1 0x3F) 6) (N.land b2 0x3F))
          :: utf16_of_utf8 r2
      | _ => []
      end
    else
      match r0 with
      | b1 :: b2 :: b3 :: r3 =>
        let cp := N.lor (N.shiftl (N.land b0 0x07) 18)
                 (N.lor (N.shiftl (N.land b1 0x3F) 12)
                 (N.lor (N.shiftl (N.land b2 0x3F) 6) (N.land b3 0x3F))) in
        let v := cp - 0x10000 in
        (0xD800 + N.shiftr v 10) :: (0xDC00 + N.land v 0x3FF) :: utf16_of_utf8 r3
      | _ => []
      end
  end.

Definition js (s : string) : jsstring :=
  utf16_of_utf8 (List.map N_of_ascii (list_ascii_of_string s)).

(** Character classes used by the script. *)

(** [WhiteSpace] and [LineTerminator] of ECMAScript: what
    [String.prototype.trim] strips and what [\s] matches. *)
Definition is_space (c : N) : bool :=
  (c =? 0x09) || (c =? 0x0A) || (c =? 0x0B) || (c =? 0x0C) || (c =? 0x0D)
  || (c =? 0x20) || (c =? 0xA0) || (c =? 0x1680)
  || ((0x2000 <=? c) && (c <=? 0x200A))
  || (c =? 0x2028) || (c =? 0x2029) || (c =? 0x202F) || (c =? 0x205F)
  || (c =? 0x3000) || (c =? 0xFEFF).

(** [LineTerminator]: the code units the regular expression [.] rejects. *)
Definition is_line_terminator (c : N) : bool :=
  (c =? 0x0A) || (c =? 0x0D) || (c =? 0x2028) || (c =? 0x2029).

(** [.] without the [s] flag. *)
Definition dot (c : N) : bool := negb (is_line_terminator c).

(** The class [[（(]]: U+FF08 and U+0028. *)
Definition is_open (c : N) : bool := (c =? 0xFF08) || (c =? 0x28).

(** The class [[）)]]: U+FF09 and U+0029. *)
Definition is_close (c : N) : bool := (c =? 0xFF09) || (c =? 0x29).

Definition is_paren (c : N) : bool := is_open c || is_close c.

Definition LF : N := 0x0A.

(** [String.prototype.trimStart], [trimEnd] and [trim]. *)
Fixpoint trimStart (s : jsstring) : jsstring :=
  match s with
  | [] => []
  | c :: s' => if is_space c then trimStart s' else s
  end.

Definition trimEnd (s : jsstring) : jsstring := rev (trimStart (rev s)).

Definition trim (s : jsstring) : jsstring := trimEnd (trimStart s).

(** [no_lead s]: [s] does not start with white space. *)
Definition no_lead (s : jsstring) : bool :=
  match s with
  | [] => true
  | c :: _ => negb (is_space c)
  end.

(** [s.split(sep)] for a one-code-unit separator: never an empty array. *)
Fixpoint split (sep : N) (s : jsstring) : list jsstring :=
  match s with
  | [] => [[]]
  | c :: s' =>
    if c =? sep then [] :: split sep s'
    else match split sep s' with
         | l :: ls => (c :: l) :: ls
         | [] => [[c]]
         end
  end.

(** [s.substring(0, n)]. *)
Definition substring0 (n : nat) (s : jsstring) : jsstring := firstn n s.

(** [s.includes(t)]. *)
Fixpoint starts_with (t s : jsstring) : bool :=
  match t, s with
  | [], _ => true
  | _ :: _, [] => false
  | a :: t', b :: s' => (a =? b) && starts_with t' s'
  end.

Fixpoint includes (s t : jsstring) : bool :=
  starts_with t s ||
  match s with
  | [] => false
  | _ :: s' => includes s' t
  end.

Definition eqb (s t : jsstring) : bool :=
  if list_eq_dec N.eq_dec s t then true else false.

End JsString.

Import JsString.

(** ** Regular expressions *)

(** The fragment of ECMAScript regular expressions the script uses: a
    sequence of atoms, each a character class, a greedy or lazy star of a
    class, an optional class, or the end anchor.  [exec r s] is the
    backtracking matcher anchored at the start of [s]; it yields the
    number of code units of the match the ECMAScript priority order
    finds first. *)
Module Regex.

Inductive atom :=
| Chr (p : N -> bool)      (* one code unit of the class *)
| StarG (p : N -> bool)    (* class*  *)
| StarL (p : N -> bool)    (* class*? *)
| Opt (p : N -> bool)      (* class?  *)
| Eos.                     (* $ (no m flag) *)

Definition regex := list atom.

Fixpoint exec (r : regex) : jsstring -> option nat :=
  match r with
  | [] => fun _ => Some 0%nat
  | a :: r' =>
    let k := exec r' in
    match a with
    | Chr p => fun s =>
        match s with
        | c :: s' => if p c then option_map S (k s') else None
        | [] => None
        end
    | StarG p =>
        fix loop (s : jsstring) : option nat :=
          match s with
          | c :: s' =>
            if p c then
              match loop s' with
              | Some n => Some (S n)
              | None => k s
              end
            else k s
          | [] => k s
          end
    | StarL p =>
        fix loop (s : jsstring) : option nat :=
          match k s with
          | Some n => Some n
          | None =>
            match s with
            | c :: s' => if p c then option_map S (loop s') else None
            | [] => None
            end
          end
    | Opt p => fun s =>
        match s with
        | c :: s' =>
          if p c then
            match k s' with
            | Some n => Some (S n)
            | None => k s
            end
          else k s
        | [] => k s
        end
    | Eos => fun s =>
        match s with
        | [] => k s
        | _ :: _ => None
        end
    end
  end.

(** The pieces a global ([g] flag) scan cuts a string into: code units
    outside every match, and the matches, leftmost first and
    non-overlapping.  [skip] counts the code units of the current match
    still to be passed over.  After an empty match the scan moves on by
    one code unit, as [lastIndex] does. *)
Inductive piece :=
| Kept (c : N)
| Matched (m : jsstring).

Fixpoint scan (r : regex) (skip : nat) (s : jsstring) : list piece :=
  match s with
  | [] =>
    match skip with
    | O => match exec r [] with Some _ => [Matched []] | None => [] end
    | S _ => []
    end
  | c :: s' =>
    match skip with
    | S k => scan r k s'
    | O =>
      match exec r s with
      | Some O => Matched [] :: Kept c :: scan r 0 s'
      | Some (S n) => Matched (firstn (S n) s) :: scan r n s'
      | None => Kept c :: scan r 0 s'
      end
    end
  end.

(** The code units a piece stands for. *)
Definition raw (p : piece) : jsstring :=
  match p with Kept c => [c] | Matched m => m end.

Definition subst (repl : jsstring) (p : piece) : jsstring :=
  match p with
  | Kept c => [c]
  | Matched _ => repl
  end.

(** [s.replace(/r/g, repl)] for a replacement without [$] patterns. *)
Definition replace (r : regex) (repl : jsstring) (s : jsstring) : jsstring :=
  flat_map (subst repl) (scan r 0 s).

(** The substrings a global scan matches, in order. *)
Definition matches (r : regex) (s : jsstring) : list jsstring :=
  flat_map (fun p => match p with Kept _ => [] | Matched m => [m] end)
           (scan r 0 s).

Definition lit (c : N) : N -> bool := N.eqb c.

(** A letter under the [i] flag: the code units whose canonical
    (upper-case) form is that of the letter.  For an ASCII letter these
    are its two cases only, a code unit above 127 never canonicalising
    to one below. *)
Definition lit_i (lower upper : N) (c : N) : bool :=
  N.eqb c lower || N.eqb c upper.

End Regex.

Import Regex.

(** ** The text normaliser *)

Module Normalizer.

(** [/[（(].*?[）)]/g] *)
Definition re_paren : regex := [Chr is_open; StarL dot; Chr is_close].

(** [/<br\s*\/?>/gi] *)
Definition re_br : regex :=
  [Chr (lit 0x3C); Chr (lit_i 0x62 0x42); Chr (lit_i 0x72 0x52);
   StarG is_space; Opt (lit 0x2F); Chr (lit 0x3E)]%N.

(** [/<[^>]*>/g] *)
Definition re_tag : regex :=
  [Chr (lit 0x3C); StarG (fun c => negb (lit 0x3E c)); Chr (lit 0x3E)]%N.

(** [/\s*[（(].*?[）)]\s*$/g] *)
Definition re_trailing : regex :=
  [StarG is_space; Chr is_open; StarL dot; Chr is_close; StarG is_space; Eos].

(** [cleanJapaneseText], the same text in both files.  The argument is a
    string, [null] or [undefined]; [None] stands for the two absent
    values, and [!text] holds of them and of the empty string. *)
Definition cleanJapaneseText (text : option jsstring) : jsstring :=
  match text with
  | None | Some [] => []
  | Some t => trim (replace re_paren [] t)
  end.

(** [extractJapaneseOnly] of [src/data/tts.js]. *)
Definition extractJapaneseOnly (text : option jsstring) : jsstring :=
  match text with
  | None | Some [] => []
  | Some t =>
    let cleanText := replace re_br [LF] t in
    let cleanText := replace re_tag [] cleanText in
    let lines := split LF cleanText in
    if (0 <? List.length lines)%nat then
      let japanesePart := trim (hd [] lines) in
      let japanesePart := replace re_trailing [] japanesePart in
      let japanesePart := cleanJapaneseText (Some japanesePart) in
      japanesePart
    else cleanJapaneseText text
  end.

(** The primary-text extraction as the specification words it: after the
    same two markup passes, the first non-empty segment is the primary
    one, and without any the whole raw input is cleaned. *)
Definition first_non_empty (lines : list jsstring) : option jsstring :=
  find (fun l => negb (eqb l [])) lines.

Definition extractPrimaryText_spec (raw : option jsstring) : jsstring :=
  match raw with
  | None | Some [] => []
  | Some t =>
    let lines := split LF (replace re_tag [] (replace re_br [LF] t)) in
    match first_non_empty lines with
    | Some seg => cleanJapaneseText (Some (replace re_trailing [] (trim seg)))
    | None => cleanJapaneseText raw
    end
  end.

(** Auxiliary readings of a string, used to state what the cleaning
    achieves. *)

(** Length of the shortest prefix ending in a closing parenthesis and
    free of line terminators before it. *)
Fixpoint find_close (s : jsstring) : option nat :=
  match s with
  | [] => None
  | c :: s' =>
    if is_close c then Some 1%nat
    else if dot c then option_map S (find_close s')
    else None
  end.

(** [ungrouped seen s]: no opening parenthesis of [s] is followed on its
    line by a closing one; [seen] tells whether an opening parenthesis
    already stands on the current line. *)
Fixpoint ungrouped (seen : bool) (s : jsstring) : bool :=
  match s with
  | [] => true
  | c :: s' =>
    if is_line_terminator c then ungrouped false s'
    else if is_close c then negb seen && ungrouped seen s'
    else if is_open c then ungrouped true s'
    else ungrouped seen s'
  end.



End Normalizer.

Import Normalizer.

(** ** The page: module state, timers, console and the speech capability *)

Module Browser.

Record Voice := { v_lang : jsstring; v_name : jsstring }.

(** A [SpeechSynthesisUtterance] object.  [u_id] is the identity of the
    object.  The three handler slots hold the closures the script
    assigns; a closure is kept as the variable it captures. *)
Record Utterance := {
  u_id : nat;
  u_text : jsstring;
  u_lang : jsstring;
  u_rate : Q;
  u_pitch : Q;
  u_volume : Q;
  u_voice : option Voice;
  u_onstart : option jsstring;   (* captures cleanText *)
  u_onend : bool;
  u_onerror : bool
}.

Inductive exn := Error (message : jsstring).

Inductive level := Log | Warn | Err.

(** One call of [console.log], [console.warn] or [console.error]: the
    message and the second argument, when there is one. *)
Record LogEntry := { l_level : level; l_msg : jsstring; l_arg : option jsstring }.

(** Entries of the diagnostic channel: warnings and errors. *)
Definition is_diagnostic (e : LogEntry) : bool :=
  match l_level e with Log => false | Warn | Err => true end.

Definition diagnostics (c : list LogEntry) : list LogEntry := filter is_diagnostic c.

(** Requests the script sends to the capability. *)
Inductive request := Cancel | Speak (u : Utterance).

(** The speech capability ([window.speechSynthesis]), an external
    collaborator: a queue of utterances submitted and neither finished
    nor discarded, the readable flag telling that audio is being
    produced, the voice catalogue, whether a submission is accepted or
    throws, and the requests received so far. *)
Record Synth := {
  queue : list Utterance;
  speaking : bool;
  voices : list Voice;
  accepting : bool;
  received : list request
}.

(** A callback armed by [setTimeout]: when it is due, and the variables
    its closure captures. *)
Record Timer := { due : nat; t_text : jsstring; t_rate : Q }.

Record World := {
  isSpeaking : bool;                      (* let isSpeaking *)
  currentUtterance : option Utterance;    (* let currentUtterance *)
  synth : Synth;                          (* const synth *)
  timers : list Timer;
  clock : nat;                            (* milliseconds *)
  console : list LogEntry;
  next_id : nat;                          (* identity of the next object *)
  uncaught : list exn                     (* exceptions no handler caught *)
}.

(** Statements run in a state-and-exception monad: a thrown exception
    keeps the effects made before it. *)
Inductive outcome (A : Type) := Ok (a : A) | Throw (e : exn).
Arguments Ok {A} a.
Arguments Throw {A} e.

Definition M (A : Type) := World -> outcome A * World.

Definition ret {A} (a : A) : M A := fun w => (Ok a, w).

Definition bind {A B} (m : M A) (f : A -> M B) : M B :=
  fun w =>
    match m w with
    | (Ok a, w') => f a w'
    | (Throw e, w') => (Throw e, w')
    end.

Definition throw {A} (e : exn) : M A := fun w => (Throw e, w).

Definition try_catch (body : M unit) (handler : exn -> M unit) : M unit :=
  fun w =>
    match body w with
    | (Ok a, w') => (Ok a, w')
    | (Throw e, w') => handler e w'
    end.

Declare Scope js_scope.
Delimit Scope js_scope with js_m.
Notation "x <- m ;; k" := (bind m (fun x => k))
  (at level 61, m at next level, right associativity) : js_scope.
Notation "m ;; k" := (bind m (fun _ => k))
  (at level 61, right associativity) : js_scope.
Open Scope js_scope.

Definition with_isSpeaking (b : bool) (w : World) : World :=
  {| isSpeaking := b; currentUtterance := currentUtterance w; synth := synth w;
     timers := timers w; clock := clock w; console := console w;
     next_id := next_id w; uncaught := uncaught w |}.

Definition with_currentUtterance (u : option Utterance) (w : World) : World :=
  {| isSpeaking := isSpeaking w; currentUtterance := u; synth := synth w;
     timers := timers w; clock := clock w; console := console w;
     next_id := next_id w; uncaught := uncaught w |}.

Definition with_synth (s : Synth) (w : World) : World :=
  {| isSpeaking := isSpeaking w; currentUtterance := currentUtterance w; synth := s;
     timers := timers w; clock := clock w; console := console w;
     next_id := next_id w; uncaught := uncaught w |}.

Definition with_timers (t : list Timer) (w : World) : World :=
  {| isSpeaking := isSpeaking w; currentUtterance := currentUtterance w; synth := synth w;
     timers := t; clock := clock w; console := console w;
     next_id := next_id w; uncaught := uncaught w |}.

Definition with_clock (c : nat) (w : World) : World :=
  {| isSpeaking := isSpeaking w; currentUtterance := currentUtterance w; synth := synth w;
     timers := timers w; clock := c; console := console w;
     next_id := next_id w; uncaught := uncaught w |}.

Definition with_console (c : list LogEntry) (w : World) : World :=
  {| isSpeaking := isSpeaking w; currentUtterance := currentUtterance w; synth := synth w;
     timers := timers w; clock := clock w; console := c;
     next_id := next_id w; uncaught := uncaught w |}.

Definition with_next_id (n : nat) (w : World) : World :=
  {| isSpeaking := isSpeaking w; currentUtterance := currentUtterance w; synth := synth w;
     timers := timers w; clock := clock w; console := console w;
     next_id := n; uncaught := uncaught w |}.

Definition with_uncaught (l : list exn) (w : World) : World :=
  {| isSpeaking := isSpeaking w; currentUtterance := currentUtterance w; synth := synth w;
     timers := timers w; clock := clock w; console := console w;
     next_id := next_id w; uncaught := l |}.

(** *** The module variables *)

Definition get_isSpeaking : M bool := fun w => (Ok (isSpeaking w), w).
Definition set_isSpeaking (b : bool) : M unit := fun w => (Ok tt, with_isSpeaking b w).
Definition get_currentUtterance : M (option Utterance) :=
  fun w => (Ok (currentUtterance w), w).
Definition set_currentUtterance (u : option Utterance) : M unit :=
  fun w => (Ok tt, with_currentUtterance u w).

(** [currentUtterance.p = v]: a [TypeError] when the variable is [null]. *)
Definition assign_currentUtterance (f : Utterance -> Utterance) : M unit :=
  fun w =>
    match currentUtterance w with
    | Some u => (Ok tt, with_currentUtterance (Some (f u)) w)
    | None => (Throw (Error (js "TypeError: Cannot set properties of null")), w)
    end.

Definition set_lang (l : jsstring) (u : Utterance) : Utterance :=
  {| u_id := u_id u; u_text := u_text u; u_lang := l; u_rate := u_rate u;
     u_pitch := u_pitch u; u_volume := u_volume u; u_voice := u_voice u;
     u_onstart := u_onstart u; u_onend := u_onend u; u_onerror := u_onerror u |}.

Definition set_rate (r : Q) (u : Utterance) : Utterance :=
  {| u_id := u_id u; u_text := u_text u; u_lang := u_lang u; u_rate := r;
     u_pitch := u_pitch u; u_volume := u_volume u; u_voice := u_voice u;
     u_onstart := u_onstart u; u_onend := u_onend u; u_onerror := u_onerror u |}.

Definition set_pitch (p : Q) (u : Utterance) : Utterance :=
  {| u_id := u_id u; u_text := u_text u; u_lang := u_lang u; u_rate := u_rate u;
     u_pitch := p; u_volume := u_volume u; u_voice := u_voice u;
     u_onstart := u_onstart u; u_onend := u_onend u; u_onerror := u_onerror u |}.

Definition set_volume (v : Q) (u : Utterance) : Utterance :=
  {| u_id := u_id u; u_text := u_text u; u_lang := u_lang u; u_rate := u_rate u;
     u_pitch := u_pitch u; u_volume := v; u_voice := u_voice u;
     u_onstart := u_onstart u; u_onend := u_onend u; u_onerror := u_onerror u |}.

Definition set_voice (v : Voice) (u : Utterance) : Utterance :=
  {| u_id := u_id u; u_text := u_text u; u_lang := u_lang u; u_rate := u_rate u;
     u_pitch := u_pitch u; u_volume := u_volume u; u_voice := Some v;
     u_onstart := u_onstart u; u_onend := u_onend u; u_onerror := u_onerror u |}.

Definition set_onstart (captured : jsstring) (u : Utterance) : Utterance :=
  {| u_id := u_id u; u_text := u_text u; u_lang := u_lang u; u_rate := u_rate u;
     u_pitch := u_pitch u; u_volume := u_volume u; u_voice := u_voice u;
     u_onstart := Some captured; u_onend := u_onend u; u_onerror := u_onerror u |}.

Definition set_onend (u : Utterance) : Utterance :=
  {| u_id := u_id u; u_text := u_text u; u_lang := u_lang u; u_rate := u_rate u;
     u_pitch := u_pitch u; u_volume := u_volume u; u_voice := u_voice u;
     u_onstart := u_onstart u; u_onend := true; u_onerror := u_onerror u |}.

Definition set_onerror (u : Utterance) : Utterance :=
  {| u_id := u_id u; u_text := u_text u; u_lang := u_lang u; u_rate := u_rate u;
     u_pitch := u_pitch u; u_volume := u_volume u; u_voice := u_voice u;
     u_onstart := u_onstart u; u_onend := u_onend u; u_onerror := true |}.

(** [new SpeechSynthesisUtterance(text)]: a fresh object with the
    defaults of the interface. *)
Definition new_SpeechSynthesisUtterance (text : jsstring) : M Utterance :=
  fun w =>
    (Ok {| u_id := next_id w; u_text := text; u_lang := []; u_rate := 1;
           u_pitch := 1; u_volume := 1; u_voice := None;
           u_onstart := None; u_onend := false; u_onerror := false |},
     with_next_id (S (next_id w)) w).

(** *** The console *)

Definition console_emit (e : LogEntry) : M unit :=
  fun w => (Ok tt, with_console (console w ++ [e]) w).

Definition console_log (msg : jsstring) (arg : option jsstring) : M unit :=
  console_emit {| l_level := Log; l_msg := msg; l_arg := arg |}.
Definition console_warn (msg : jsstring) (arg : option jsstring) : M unit :=
  console_emit {| l_level := Warn; l_msg := msg; l_arg := arg |}.
Definition console_error (msg : jsstring) (arg : option jsstring) : M unit :=
  console_emit {| l_level := Err; l_msg := msg; l_arg := arg |}.

Definition message_of (e : exn) : jsstring := match e with Error m => m end.

(** *** The capability as the script uses it *)

(** [synth.speaking] *)
Definition synth_speaking : M bool := fun w => (Ok (speaking (synth w)), w).

(** [synth.pending]: the queue holds an utterance that has not started. *)
Definition pending (s : Synth) : bool :=
  if speaking s then (1 <? List.length (queue s))%nat
  else (0 <? List.length (queue s))%nat.

Definition synth_pending : M bool := fun w => (Ok (pending (synth w)), w).

(** [synth.cancel()]: every utterance leaves the queue. *)
Definition cancel (s : Synth) : Synth :=
  {| queue := []; speaking := false; voices := voices s;
     accepting := accepting s; received := received s ++ [Cancel] |}.

Definition synth_cancel : M unit := fun w => (Ok tt, with_synth (cancel (synth w)) w).

(** The exception of a rejected submission. *)
Definition rejected : exn := Error (js "speak: submission rejected").

(** [synth.speak(u)]: the utterance joins the queue, unless the
    capability rejects the submission. *)
Definition submit (u : Utterance) (s : Synth) : Synth :=
  {| queue := queue s ++ [u]; speaking := speaking s; voices := voices s;
     accepting := accepting s; received := received s ++ [Speak u] |}.

Definition synth_speak (arg : option Utterance) : M unit :=
  fun w =>
    match arg with
    | Some u =>
      if accepting (synth w) then (Ok tt, with_synth (submit u (synth w)) w)
      else (Throw rejected, w)
    | None => (Throw (Error (js "TypeError: parameter 1 is not of type 'SpeechSynthesisUtterance'")), w)
    end.

(** [synth.getVoices()] *)
Definition synth_getVoices : M (list Voice) := fun w => (Ok (voices (synth w)), w).

(** [setTimeout(callback, delay)], the callback kept as the variables it
    captures. *)
Definition setTimeout (text : jsstring) (rate : Q) (delay : nat) : M unit :=
  fun w =>
    (Ok tt,
     with_timers (timers w ++ [{| due := clock w + delay; t_text := text; t_rate := rate |}]) w).

Definition ja_JP : jsstring := js "ja-JP".

(** The utterances submitted and not yet resolved. *)
Definition outstanding (w : World) : list Utterance := queue (synth w).

(** The entries the two files write on the diagnostic channel. *)
Definition empty_text_warning : LogEntry :=
  {| l_level := Warn; l_msg := js "TTS: Empty text provided"; l_arg := None |}.

Definition tts_error (e : exn) : LogEntry :=
  {| l_level := Err; l_msg := js "TTS Error:"; l_arg := Some (message_of e) |}.

(** The voice the delayed action settles on: a [ja-JP] voice whose name
    holds [Google], else any [ja-JP] voice, else none. *)
Definition chosen_voice (vs : list Voice) : option Voice :=
  match find (fun v => eqb (v_lang v) ja_JP && includes (v_name v) (js "Google")) vs with
  | Some g => Some g
  | None => find (fun v => eqb (v_lang v) ja_JP) vs
  end.

(** The utterance the delayed action has built when it submits it. *)
Definition built (id : nat) (text : jsstring) (rate : Q) (vs : list Voice) : Utterance :=
  {| u_id := id; u_text := text; u_lang := ja_JP; u_rate := rate;
     u_pitch := 1; u_volume := 1; u_voice := chosen_voice vs;
     u_onstart := Some text; u_onend := true; u_onerror := true |}.

(** [rate = 0.85], the default of the second parameter. *)
Definition rate_or_default (rate : option Q) : Q :=
  match rate with Some r => r | None => (85 # 100)%Q end.

End Browser.

Import Browser.

(** ** [src/data/tts.js] *)

Module Tts.

(** [stopSpeech] *)
Definition stopSpeech : M unit :=
  sp <- synth_speaking ;;
  (if sp then synth_cancel else ret tt) ;;
  set_isSpeaking false ;;
  set_currentUtterance None.

(** [isTTSSpeaking] *)
Definition isTTSSpeaking : M bool := get_isSpeaking.

(** [currentUtterance.onstart] *)
Definition onstart (cleanText : jsstring) : M unit :=
  set_isSpeaking true ;;
  console_log (js "🔊 Speaking:") (Some (substring0 50 cleanText)).

(** [currentUtterance.onend] *)
Definition onend : M unit :=
  set_isSpeaking false ;;
  set_currentUtterance None ;;
  console_log (js "✓ Speech ended") None.

(** [currentUtterance.onerror]; [event_error] is [event.error]. *)
Definition onerror (event_error : jsstring) : M unit :=
  (if negb (eqb event_error (js "interrupted")) && negb (eqb event_error (js "cancelled"))
   then console_error (js "❌ Speech error:") (Some event_error)
   else ret tt) ;;
  set_isSpeaking false ;;
  set_currentUtterance None.

(** The statements of the [try] block of the delayed action. *)
Definition timeout_body (cleanText : jsstring) (rate : Q) : M unit :=
  u <- new_SpeechSynthesisUtterance cleanText ;;
  set_currentUtterance (Some u) ;;
  assign_currentUtterance (set_lang ja_JP) ;;
  assign_currentUtterance (set_rate rate) ;;
  assign_currentUtterance (set_pitch 1) ;;
  assign_currentUtterance (set_volume 1) ;;
  voices <- synth_getVoices ;;
  let googleVoice :=
    find (fun v => eqb (v_lang v) ja_JP && includes (v_name v) (js "Google")) voices in
  let japaneseVoice := find (fun v => eqb (v_lang v) ja_JP) voices in
  match googleVoice with
  | Some g => assign_currentUtterance (set_voice g)
  | None =>
    match japaneseVoice with
    | Some j => assign_currentUtterance (set_voice j)
    | None => ret tt
    end
  end ;;
  assign_currentUtterance (set_onstart cleanText) ;;
  assign_currentUtterance set_onend ;;
  assign_currentUtterance set_onerror ;;
  set_isSpeaking true ;;
  cu <- get_currentUtterance ;;
  synth_speak cu.

(** The arrow function handed to [setTimeout]. *)
Definition timeout_callback (cleanText : jsstring) (rate : Q) : M unit :=
  try_catch (timeout_body cleanText rate)
    (fun error =>
       console_error (js "TTS Error:") (Some (message_of error)) ;;
       set_isSpeaking false).

Definition delay : nat := 50.

(** [speakJapanese(text, rate = 0.85)] *)
Definition speakJapanese (text : option jsstring) (rate : option Q) : M unit :=
  let rate := rate_or_default rate in
  let cleanText := cleanJapaneseText text in
  if eqb cleanText [] || eqb (trim cleanText) [] then
    console_warn (js "TTS: Empty text provided") None
  else
    stopSpeech ;;
    setTimeout cleanText rate delay.

End Tts.

(** ** The unnamed variant, [src/unnamed/part_000] *)

Module Part000.

(** [cleanJapaneseText], as in the other file. *)
Definition cleanJapaneseText (text : option jsstring) : jsstring :=
  match text with
  | None | Some [] => []
  | Some t => trim (replace re_paren [] t)
  end.

(** [stopSpeech] *)
Definition stopSpeech : M unit :=
  sp <- synth_speaking ;;
  (if sp then synth_cancel else ret tt) ;;
  set_isSpeaking false ;;
  set_currentUtterance None.

(** [isTTSSpeaking] *)
Definition isTTSSpeaking : M bool := get_isSpeaking.

(** [currentUtterance.onstart] *)
Definition onstart (cleanText : jsstring) : M unit :=
  set_isSpeaking true ;;
  console_log (js "🔊 Speaking:") (Some cleanText).

(** [currentUtterance.onend] *)
Definition onend : M unit :=
  set_isSpeaking false ;;
  set_currentUtterance None.

(** [currentUtterance.onerror]; [e_error] is [e.error]. *)
Definition onerror (e_error : jsstring) : M unit :=
  (if negb (eqb e_error (js "interrupted"))
   then console_error (js "TTS error:") (Some e_error)
   else ret tt) ;;
  set_isSpeaking false ;;
  set_currentUtterance None.

(** The arrow function handed to [setTimeout]; no [try] inside it. *)
Definition timeout_callback (cleanText : jsstring) (rate : Q) : M unit :=
  u <- new_SpeechSynthesisUtterance cleanText ;;
  set_currentUtterance (Some u) ;;
  assign_currentUtterance (set_lang ja_JP) ;;
  assign_currentUtterance (set_rate rate) ;;
  assign_currentUtterance (set_pitch 1) ;;
  assign_currentUtterance (set_volume 1) ;;
  voices <- synth_getVoices ;;
  let googleVoice :=
    find (fun v => eqb (v_lang v) ja_JP && includes (v_name v) (js "Google")) voices in
  let jpVoice := find (fun v => eqb (v_lang v) ja_JP) voices in
  match googleVoice with
  | Some g => assign_currentUtterance (set_voice g)
  | None =>
    match jpVoice with
    | Some j => assign_currentUtterance (set_voice j)
    | None => ret tt
    end
  end ;;
  assign_currentUtterance (set_onstart cleanText) ;;
  assign_currentUtterance set_onend ;;
  assign_currentUtterance set_onerror ;;
  cu <- get_currentUtterance ;;
  synth_speak cu.

Definition delay : nat := 500.

(** [speakJapanese(text, rate = 0.85)]; the [try] encloses the call of
    [setTimeout], not the body of the delayed action. *)
Definition speakJapanese (text : option jsstring) (rate : option Q) : M unit :=
  let rate := rate_or_default rate in
  let cleanText := cleanJapaneseText text in
  if eqb cleanText [] then ret tt
  else
    try_catch
      (sp <- synth_speaking ;;
       busy <- (if sp then ret true else synth_pending) ;;
       (if busy then synth_cancel else ret tt) ;;
       setTimeout cleanText rate delay)
      (fun err => console_error (js "TTS Error:") (Some (message_of err))).

End Part000.

(** ** The event loop *)

Module EventLoop.

(** What a loaded script contributes: the three exposed functions, the
    delayed action and the three utterance handlers. *)
Record Script := {
  s_speakJapanese : option jsstring -> option Q -> M unit;
  s_stopSpeech : M unit;
  s_isTTSSpeaking : M bool;
  s_timeout : jsstring -> Q -> M unit;
  s_onstart : jsstring -> M unit;
  s_onend : M unit;
  s_onerror : jsstring -> M unit
}.

Definition tts_js : Script :=
  {| s_speakJapanese := Tts.speakJapanese; s_stopSpeech := Tts.stopSpeech;
     s_isTTSSpeaking := Tts.isTTSSpeaking; s_timeout := Tts.timeout_callback;
     s_onstart := Tts.onstart; s_onend := Tts.onend; s_onerror := Tts.onerror |}.

Definition part_000 : Script :=
  {| s_speakJapanese := Part000.speakJapanese; s_stopSpeech := Part000.stopSpeech;
     s_isTTSSpeaking := Part000.isTTSSpeaking; s_timeout := Part000.timeout_callback;
     s_onstart := Part000.onstart; s_onend := Part000.onend;
     s_onerror := Part000.onerror |}.

(** What happens on the page: the host calls an exposed function, time
    passes, or the capability notifies a handler of the utterance with
    the given identity. *)
Inductive event :=
| Call_speakJapanese (text : option jsstring) (rate : option Q)
| Call_stopSpeech
| Call_isTTSSpeaking
| Elapse (ms : nat)
| Notify_start (id : nat)
| Notify_end (id : nat)
| Notify_error (id : nat) (kind : jsstring).

(** A task of the loop: an exception that leaves it is an uncaught one. *)
Definition run_task {A} (m : M A) (w : World) : World :=
  match m w with
  | (Ok _, w') => w'
  | (Throw e, w') => with_uncaught (uncaught w' ++ [e]) w'
  end.

Fixpoint submitted (rs : list request) (id : nat) : option Utterance :=
  match rs with
  | [] => None
  | Cancel :: rs' => submitted rs' id
  | Speak u :: rs' => if Nat.eqb (u_id u) id then Some u else submitted rs' id
  end.

Definition heads (id : nat) (s : Synth) : bool :=
  match queue s with
  | u :: _ => Nat.eqb (u_id u) id
  | [] => false
  end.

(** The capability starts the utterance at the head of its queue. *)
Definition begin (s : Synth) : Synth :=
  {| queue := queue s; speaking := true; voices := voices s;
     accepting := accepting s; received := received s |}.

(** The capability is done with an utterance, finished or failed. *)
Definition resolve (id : nat) (s : Synth) : Synth :=
  {| queue := filter (fun u => negb (Nat.eqb (u_id u) id)) (queue s);
     speaking := if heads id s then false else speaking s;
     voices := voices s; accepting := accepting s; received := received s |}.

Definition fire (sc : Script) (w : World) (t : Timer) : World :=
  run_task (s_timeout sc (t_text t) (t_rate t)) w.

Definition step (sc : Script) (w : World) (e : event) : World :=
  match e with
  | Call_speakJapanese text rate => run_task (s_speakJapanese sc text rate) w
  | Call_stopSpeech => run_task (s_stopSpeech sc) w
  | Call_isTTSSpeaking => run_task (s_isTTSSpeaking sc) w
  | Elapse ms =>
    let now := clock w + ms in
    let ready := filter (fun t => due t <=? now) (timers w) in
    let later := filter (fun t => negb (due t <=? now)) (timers w) in
    fold_left (fire sc) ready (with_timers later (with_clock now w))
  | Notify_start id =>
    match submitted (received (synth w)) id with
    | Some u =>
      if heads id (synth w) && negb (speaking (synth w)) then
        let w' := with_synth (begin (synth w)) w in
        match u_onstart u with
        | Some captured => run_task (s_onstart sc captured) w'
        | None => w'
        end
      else w
    | None => w
    end
  | Notify_end id =>
    match submitted (received (synth w)) id with
    | Some u =>
      if heads id (synth w) && speaking (synth w) then
        let w' := with_synth (resolve id (synth w)) w in
        if u_onend u then run_task (s_onend sc) w' else w'
      else w
    | None => w
    end
  | Notify_error id kind =>
    match submitted (received (synth w)) id with
    | Some u =>
      let w' := with_synth (resolve id (synth w)) w in
      if u_onerror u then run_task (s_onerror sc kind) w' else w'
    | None => w
    end
  end.

Definition run (sc : Script) (w : World) (es : list event) : World :=
  fold_left (step sc) es w.

(** The page once the script is loaded. *)
Definition loaded (vs : list Voice) (ok : bool) : World :=
  {| isSpeaking := false; currentUtterance := None;
     synth := {| queue := []; speaking := false; voices := vs;
                 accepting := ok; received := [] |};
     timers := []; clock := 0; console := []; next_id := 0; uncaught := [] |}.

(** Two calls in rapid succession: the second comes [gap] milliseconds
    after the first. *)
Definition rapid_pair (text1 : option jsstring) (rate1 : option Q) (gap : nat)
    (text2 : option jsstring) (rate2 : option Q) : list event :=
  [Call_speakJapanese text1 rate1; Elapse gap; Call_speakJapanese text2 rate2].

(** The start notifications among the events. *)
Definition start_notifications (es : list event) : list nat :=
  flat_map (fun e => match e with Notify_start id => [id] | _ => [] end) es.

End EventLoop.

Import EventLoop.

(** ** The error kinds of the capability *)

Module SpeechApi.



End SpeechApi.

Import SpeechApi.

(** ** Further readings of strings *)

Module Reading.

(** [subseq a b]: [a] is [b] with some code units left out. *)
Inductive subseq : jsstring -> jsstring -> Prop :=
| subseq_nil : subseq [] []
| subseq_drop c a b : subseq a b -> subseq a (c :: b)
| subseq_keep c a b : subseq a b -> subseq (c :: a) (c :: b).

(** [trimmed s]: white space neither starts nor ends [s]. *)
Definition trimmed (s : jsstring) : bool := no_lead s && no_lead (rev s).

Definition LT : N := 0x3C.   (* < *)
Definition GT : N := 0x3E.   (* > *)
Definition SLASH : N := 0x2F.

(** [untagged seen s]: no [<] of [s] is followed by a [>]; [seen] tells
    whether a [<] already stands before [s]. *)
Fixpoint untagged (seen : bool) (s : jsstring) : bool :=
  match s with
  | [] => true
  | c :: s' =>
    if N.eqb c GT then negb seen && untagged seen s'
    else if N.eqb c LT then untagged true s'
    else untagged seen s'
  end.

(** Number of code units up to and including the first [>]. *)
Fixpoint find_gt (s : jsstring) : option nat :=
  match s with
  | [] => None
  | c :: s' => if N.eqb c GT then Some 1 else option_map S (find_gt s')
  end.

(** A line-break tag as [re_br] reads it: [<br], either letter in either
    case, white space, an optional slash, [>]. *)
Definition slash_part (slash : bool) : jsstring :=
  if slash then [SLASH] else [].

Definition br_tag (b r : N) (ws : jsstring) (slash : bool) : jsstring :=
  LT :: b :: r :: ws ++ slash_part slash ++ [GT].

(** Code units that are neither [<] nor a newline. *)
Definition plain (c : N) : bool := negb (lit LT c) && negb (N.eqb c LF).

End Reading.

Import Reading.

(** ** Further readings of the page *)

Module Audit.

(** A voice of the target language, and one of the preferred provider. *)
Definition is_japanese (v : Voice) : bool := eqb (v_lang v) ja_JP.
Definition is_google (v : Voice) : bool := includes (v_name v) (js "Google").

(** A text fit to be spoken: not empty, trimmed, without a group. *)
Definition speakable (t : jsstring) : Prop :=
  t <> [] /\ trimmed t = true /\ ungrouped false t = true.

(** An utterance as the delayed action submits it. *)
Definition well_formed (u : Utterance) : Prop :=
  speakable (u_text u) /\
  u_lang u = ja_JP /\ u_pitch u = 1%Q /\ u_volume u = 1%Q /\
  u_onstart u = Some (u_text u) /\ u_onend u = true /\ u_onerror u = true.

(** The utterances among the requests. *)
Fixpoint spoken (rs : list request) : list Utterance :=
  match rs with
  | [] => []
  | Cancel :: rs' => spoken rs'
  | Speak u :: rs' => u :: spoken rs'
  end.

(** Every armed timer carries a speakable text, and every utterance the
    capability was asked to speak, or holds in its queue, is well
    formed. *)
Definition page_ok (w : World) : Prop :=
  Forall (fun t => speakable (t_text t)) (timers w) /\
  Forall well_formed (spoken (received (synth w))) /\
  Forall well_formed (queue (synth w)).

(** A task that keeps [page_ok]. *)
Definition keeps_page_ok {A} (m : M A) : Prop :=
  forall w, page_ok w -> page_ok (run_task m w).

(** A script all of whose tasks keep [page_ok], the delayed action
    when its text is speakable. *)
Definition script_ok (sc : Script) : Prop :=
  (forall text rate, keeps_page_ok (s_speakJapanese sc text rate)) /\
  keeps_page_ok (s_stopSpeech sc) /\
  keeps_page_ok (s_isTTSSpeaking sc) /\
  (forall t r, speakable t -> keeps_page_ok (s_timeout sc t r)) /\
  (forall t, keeps_page_ok (s_onstart sc t)) /\
  keeps_page_ok (s_onend sc) /\
  (forall kind, keeps_page_ok (s_onerror sc kind)).

(** Nothing is going on: no utterance stored or queued, no timer armed,
    no audio. *)
Definition idle (w : World) : Prop :=
  isSpeaking w = false /\ currentUtterance w = None /\ timers w = [] /\
  queue (synth w) = [] /\ speaking (synth w) = false.

End Audit.

Import Audit.

(** Reading the fields of an explicit page. *)
Ltac fields :=
  cbn [isSpeaking currentUtterance synth timers clock console next_id uncaught
       queue speaking voices accepting received
       with_timers with_clock with_synth with_console
       cancel submit begin due t_text t_rate app] in *.

(** ** Proof automation *)

(** Case analysis on the code-unit tests of the character classes. *)
Ltac classes :=
  unfold is_paren, is_open, is_close, dot, is_line_terminator, is_space in *;
  repeat match goal with
         | H : context [N.eqb ?a ?b] |- _ => destruct (N.eqb_spec a b); subst
         | |- context [N.eqb ?a ?b] => destruct (N.eqb_spec a b); subst
         end;
  simpl in *; try congruence; try lia.

(** Symbolic execution of the statements of the two scripts. *)
Ltac run_js :=
  cbv [bind ret try_catch throw
       Tts.stopSpeech Tts.isTTSSpeaking Tts.onstart Tts.onend Tts.onerror
       Tts.timeout_callback Tts.timeout_body
       Part000.stopSpeech Part000.isTTSSpeaking Part000.onstart Part000.onend
       Part000.onerror Part000.timeout_callback
       get_isSpeaking set_isSpeaking get_currentUtterance set_currentUtterance
       assign_currentUtterance new_SpeechSynthesisUtterance
       console_emit console_log console_warn console_error
       synth_speaking synth_pending synth_cancel synth_speak synth_getVoices
       setTimeout
       with_isSpeaking with_currentUtterance with_synth with_timers with_clock
       with_console with_next_id with_uncaught
       isSpeaking currentUtterance synth timers clock console next_id uncaught
       set_lang set_rate set_pitch set_volume set_voice set_onstart set_onend set_onerror
       u_id u_text u_lang u_rate u_pitch u_volume u_voice u_onstart u_onend u_onerror].

(** * Properties *)

(** ** Character classes *)

Lemma open_not_close c : is_open c = true -> is_close c = false.
Proof. classes. Qed.

Lemma open_dot c : is_open c = true -> dot c = true.
Proof. classes. Qed.

Lemma close_dot c : is_close c = true -> dot c = true.
Proof. classes. Qed.

Lemma close_not_open c : is_close c = true -> is_open c = false.
Proof. classes. Qed.

Lemma dot_line_terminator c : dot c = negb (is_line_terminator c).
Proof. reflexivity. Qed.

Lemma eqb_eq (s t : jsstring) : eqb s t = true <-> s = t.
Proof.
  unfold eqb. destruct (list_eq_dec N.eq_dec s t); split; congruence.
Qed.

Lemma eqb_nil (s : jsstring) : eqb s [] = match s with [] => true | _ => false end.
Proof. destruct s; reflexivity. Qed.

(** ** The matcher and the global scan *)

Section ScanFacts.

Variable r : regex.

(** A match never runs past the end of the string. *)
Lemma exec_le : forall (r0 : regex) s n, exec r0 s = Some n -> n <= List.length s.
Proof.
  induction r0 as [|a r' IH]; intros s n H.
  - simpl in H. injection H as <-. lia.
  - destruct a as [p|p|p|p|]; simpl in H.
    + destruct s as [|c s']; [discriminate|].
      destruct (p c); [|discriminate].
      destruct (exec r' s') as [m|] eqn:E; [|discriminate].
      injection H as <-. apply IH in E. simpl. lia.
    + revert n H. induction s as [|c s' IHs]; intros n H.
      * apply IH in H. exact H.
      * destruct (p c).
        -- match type of H with
           | match ?l with _ => _ end = _ => destruct l as [m|] eqn:E
           end.
           ++ injection H as <-. specialize (IHs _ eq_refl). simpl. lia.
           ++ apply IH in H. exact H.
        -- apply IH in H. exact H.
    + revert n H. induction s as [|c s' IHs]; intros n H.
      * destruct (exec r' []) as [m|] eqn:E; [|discriminate].
        injection H as <-. apply IH in E. exact E.
      * destruct (exec r' (c :: s')) as [m|] eqn:E.
        -- injection H as <-. apply IH in E. exact E.
        -- destruct (p c); [|discriminate].
           match type of H with
           | option_map S ?l = _ => destruct l as [m|] eqn:E'
           end; [|discriminate].
           injection H as <-. specialize (IHs _ eq_refl). simpl. lia.
    + destruct s as [|c s']; [apply IH in H; exact H|].
      destruct (p c); [|apply IH in H; exact H].
      destruct (exec r' s') as [m|] eqn:E.
      * injection H as <-. apply IH in E. simpl. lia.
      * apply IH in H. exact H.
    + destruct s as [|c s']; [|discriminate]. apply IH in H. exact H.
Qed.

Lemma scan_skipn : forall s k,
  k <= List.length s -> scan r k s = scan r 0 (skipn k s).
Proof.
  induction s as [|c s' IH]; intros k Hk.
  - simpl in Hk. assert (k = 0) by lia. subst. reflexivity.
  - destruct k as [|k]; [reflexivity|].
    simpl. apply IH. simpl in Hk. lia.
Qed.

Lemma scan_matched c s n :
  exec r (c :: s) = Some (S n) ->
  scan r 0 (c :: s) = Matched (c :: firstn n s) :: scan r 0 (skipn n s).
Proof.
  intros H. simpl scan. rewrite H. f_equal.
  apply scan_skipn. apply exec_le in H. simpl in H. lia.
Qed.

Lemma scan_kept c s :
  exec r (c :: s) = None -> scan r 0 (c :: s) = Kept c :: scan r 0 s.
Proof. intros H. simpl. rewrite H. reflexivity. Qed.

(** The pieces of a scan, put back together, are the string scanned. *)
Lemma scan_partition : forall s k,
  k <= List.length s -> flat_map raw (scan r k s) = skipn k s.
Proof.
  induction s as [|c s' IH]; intros k Hk.
  - simpl in Hk. assert (k = 0) by lia. subst. simpl.
    destruct (exec r []); reflexivity.
  - destruct k as [|k].
    + simpl scan. destruct (exec r (c :: s')) as [[|n]|] eqn:E.
      * simpl. f_equal. apply (IH 0). lia.
      * apply exec_le in E. simpl in E.
        change (flat_map raw (Matched (c :: firstn n s') :: scan r n s'))
          with ((c :: firstn n s') ++ flat_map raw (scan r n s')).
        rewrite IH by lia. simpl. f_equal. apply firstn_skipn.
      * simpl. f_equal. apply (IH 0). lia.
    + simpl. apply IH. simpl in Hk. lia.
Qed.

End ScanFacts.

(** ** The parenthesis expression *)

Lemma exec_lazy_close s : exec [StarL dot; Chr is_close] s = find_close s.
Proof.
  induction s as [|c s' IH]; [reflexivity|].
  change (exec [StarL dot; Chr is_close] (c :: s'))
    with (match exec [Chr is_close] (c :: s') with
          | Some n => Some n
          | None => if dot c then option_map S (exec [StarL dot; Chr is_close] s') else None
          end).
  rewrite IH. simpl. destruct (is_close c); reflexivity.
Qed.

Lemma exec_paren c s :
  exec re_paren (c :: s) = if is_open c then option_map S (find_close s) else None.
Proof.
  change (exec re_paren (c :: s))
    with (if is_open c then option_map S (exec [StarL dot; Chr is_close] s) else None).
  rewrite exec_lazy_close. reflexivity.
Qed.

Lemma exec_paren_nil : exec re_paren [] = None.
Proof. reflexivity. Qed.

Lemma find_close_pos s n : find_close s = Some n -> exists k, n = S k.
Proof.
  destruct s as [|c s']; simpl; [discriminate|].
  destruct (is_close c); [intros [= <-]; eauto|].
  destruct (dot c); [|discriminate].
  destruct (find_close s'); simpl; [intros [= <-]; eauto|discriminate].
Qed.

Lemma find_close_le s n : find_close s = Some n -> n <= List.length s.
Proof.
  revert n. induction s as [|c s' IH]; simpl; intros n H; [discriminate|].
  destruct (is_close c); [injection H as <-; lia|].
  destruct (dot c); [|discriminate].
  destruct (find_close s') as [m|]; [|discriminate].
  injection H as <-. specialize (IH _ eq_refl). lia.
Qed.

(** The prefix [find_close] measures ends at the first closing
    parenthesis and has none before it. *)
Lemma find_close_shape s n :
  find_close s = Some (S n) ->
  exists c, nth_error s n = Some c /\ is_close c = true /\
            forallb (fun x => negb (is_close x) && dot x) (firstn n s) = true.
Proof.
  revert n. induction s as [|c s' IH]; simpl; intros n H; [discriminate|].
  destruct (is_close c) eqn:Ec.
  - injection H as <-. exists c. auto.
  - destruct (dot c) eqn:Ed; [|discriminate].
    destruct (find_close s') as [m|] eqn:E; [|discriminate].
    injection H as <-.
    destruct (find_close_pos _ _ E) as [k ->].
    destruct (IH _ eq_refl) as (c' & Hn & Hc & Hall).
    exists c'. simpl. rewrite Ec, Ed, Hall. auto.
Qed.

Lemma find_close_found mid c rest :
  is_close c = true ->
  forallb (fun x => negb (is_close x) && dot x) mid = true ->
  find_close (mid ++ c :: rest) = Some (S (List.length mid)).
Proof.
  intros Hc. induction mid as [|x mid IH]; simpl; intros H.
  - rewrite Hc. reflexivity.
  - apply andb_true_iff in H as [Hx Hm]. apply andb_true_iff in Hx as [Hx1 Hx2].
    apply negb_true_iff in Hx1. rewrite Hx1, Hx2, IH by assumption. reflexivity.
Qed.

Lemma replace_nil (r : regex) repl : exec r [] = None -> replace r repl [] = [].
Proof. unfold replace. simpl. intros ->. reflexivity. Qed.

(** How the cleaning expression rewrites a string, one step at a time. *)
Lemma replace_paren_cons c s :
  replace re_paren [] (c :: s) =
  if is_open c then
    match find_close s with
    | Some n => replace re_paren [] (skipn n s)
    | None => c :: replace re_paren [] s
    end
  else c :: replace re_paren [] s.
Proof.
  unfold replace. pose proof (exec_paren c s) as E.
  destruct (is_open c).
  - destruct (find_close s) as [n|] eqn:F.
    + rewrite (@scan_matched re_paren c s n E). reflexivity.
    + rewrite (@scan_kept re_paren c s E). reflexivity.
  - rewrite (@scan_kept re_paren c s E). reflexivity.
Qed.

Lemma matches_paren_cons c s :
  matches re_paren (c :: s) =
  if is_open c then
    match find_close s with
    | Some n => (c :: firstn n s) :: matches re_paren (skipn n s)
    | None => matches re_paren s
    end
  else matches re_paren s.
Proof.
  unfold matches. pose proof (exec_paren c s) as E.
  destruct (is_open c).
  - destruct (find_close s) as [n|] eqn:F.
    + rewrite (@scan_matched re_paren c s n E). reflexivity.
    + rewrite (@scan_kept re_paren c s E). reflexivity.
  - rewrite (@scan_kept re_paren c s E). reflexivity.
Qed.

(** ** What the cleaning leaves behind *)

Lemma ungrouped_weaken seen s : ungrouped seen s = true -> ungrouped false s = true.
Proof.
  destruct seen; [|auto].
  induction s as [|c s' IH]; simpl; [auto|].
  destruct (is_line_terminator c); [auto|].
  destruct (is_close c); [discriminate|].
  destruct (is_open c); auto.
Qed.

Lemma ungrouped_no_close s : ungrouped true s = true -> find_close s = None.
Proof.
  induction s as [|c s' IH]; simpl; [auto|].
  unfold dot. destruct (is_line_terminator c) eqn:El.
  - intros _. destruct (is_close c) eqn:Ec; [|reflexivity].
    apply close_dot in Ec. unfold dot in Ec. rewrite El in Ec. discriminate.
  - destruct (is_close c); [discriminate|]. simpl.
    destruct (is_open c); intros H; rewrite (IH H); reflexivity.
Qed.

Lemma ungrouped_app_l seen a b : ungrouped seen (a ++ b) = true -> ungrouped seen a = true.
Proof.
  revert seen. induction a as [|c a IH]; simpl; intros seen H; [reflexivity|].
  destruct (is_line_terminator c); [eauto|].
  destruct (is_close c).
  - apply andb_true_iff in H as [-> H]. simpl. eauto.
  - destruct (is_open c); eauto.
Qed.

Lemma ungrouped_app_r seen a b : ungrouped seen (a ++ b) = true -> ungrouped false b = true.
Proof.
  revert seen. induction a as [|c a IH]; simpl; intros seen H.
  - eapply ungrouped_weaken; eauto.
  - destruct (is_line_terminator c); [eauto|].
    destruct (is_close c).
    + apply andb_true_iff in H as [_ H]. eauto.
    + destruct (is_open c); eauto.
Qed.

(** A string without a group is left as it is by the replacement. *)
Lemma replace_ungrouped seen s :
  ungrouped seen s = true -> replace re_paren [] s = s.
Proof.
  revert seen. induction s as [|c s' IH]; intros seen H.
  - apply replace_nil. reflexivity.
  - rewrite replace_paren_cons. simpl in H.
    destruct (is_open c) eqn:Eo.
    + rewrite (open_not_close _ Eo) in H.
      pose proof (open_dot _ Eo) as Ed. unfold dot in Ed.
      apply negb_true_iff in Ed. rewrite Ed in H.
      rewrite (ungrouped_no_close _ H). f_equal. eauto.
    + f_equal. destruct (is_line_terminator c); [eauto|].
      destruct (is_close c); [|eauto].
      apply andb_true_iff in H as [_ H]. eauto.
Qed.

(** After the replacement no group is left. *)
Lemma replace_leaves_ungrouped_aux n : forall s seen,
  List.length s <= n ->
  (seen = true -> find_close s = None) ->
  ungrouped seen (replace re_paren [] s) = true.
Proof.
  induction n as [|n IH]; intros s seen Hlen Hseen.
  - destruct s; [|simpl in Hlen; lia]. reflexivity.
  - destruct s as [|c s']; [reflexivity|].
    simpl in Hlen. rewrite replace_paren_cons.
    destruct (is_open c) eqn:Eo.
    + pose proof (open_not_close _ Eo) as Ec. pose proof (open_dot _ Eo) as Ed.
      destruct (find_close s') as [k|] eqn:F.
      * destruct seen.
        -- specialize (Hseen eq_refl). simpl in Hseen.
           rewrite Ec, Ed, F in Hseen. discriminate.
        -- apply IH; [|discriminate].
           rewrite length_skipn. lia.
      * simpl. unfold dot in Ed. apply negb_true_iff in Ed.
        rewrite Ed, Ec, Eo. apply IH; [lia|auto].
    + simpl. destruct (is_line_terminator c) eqn:El.
      * apply IH; [lia|discriminate].
      * rewrite Eo. destruct (is_close c) eqn:Ec.
        -- destruct seen.
           ++ specialize (Hseen eq_refl). simpl in Hseen. rewrite Ec in Hseen.
              discriminate.
           ++ simpl. apply IH; [lia|discriminate].
        -- apply IH; [lia|].
           intros ->. specialize (Hseen eq_refl). simpl in Hseen.
           unfold dot in Hseen. rewrite Ec, El in Hseen. simpl in Hseen.
           destruct (find_close s'); [discriminate|reflexivity].
Qed.

Lemma replace_leaves_ungrouped s : ungrouped false (replace re_paren [] s) = true.
Proof. apply (replace_leaves_ungrouped_aux (List.length s)); [lia|discriminate]. Qed.

(** ** Trimming *)

Lemma trimStart_suffix s : exists pre, s = pre ++ trimStart s.
Proof.
  induction s as [|c s' [pre IH]]; [exists []; reflexivity|].
  simpl. destruct (is_space c).
  - exists (c :: pre). simpl. f_equal. exact IH.
  - exists []. reflexivity.
Qed.

Lemma trimEnd_prefix s : exists post, s = trimEnd s ++ post.
Proof.
  unfold trimEnd. destruct (trimStart_suffix (rev s)) as [pre H].
  exists (rev pre). rewrite <- rev_app_distr, <- H, rev_involutive. reflexivity.
Qed.

Lemma trim_infix s : exists pre post, s = pre ++ trim s ++ post.
Proof.
  unfold trim. destruct (trimStart_suffix s) as [pre H].
  destruct (trimEnd_prefix (trimStart s)) as [post H'].
  exists pre, post. rewrite <- H'. exact H.
Qed.

Lemma trimStart_no_lead s : no_lead (trimStart s) = true.
Proof.
  induction s as [|c s' IH]; [reflexivity|].
  simpl. destruct (is_space c) eqn:E; [exact IH|]. simpl. rewrite E. reflexivity.
Qed.

Lemma trimStart_fixed s : no_lead s = true -> trimStart s = s.
Proof.
  destruct s as [|c s']; [reflexivity|].
  simpl. intros H. apply negb_true_iff in H. rewrite H. reflexivity.
Qed.

Lemma trimStart_idem s : trimStart (trimStart s) = trimStart s.
Proof. apply trimStart_fixed, trimStart_no_lead. Qed.

Lemma trimEnd_no_lead s : no_lead s = true -> no_lead (trimEnd s) = true.
Proof.
  intros H. destruct (trimEnd_prefix s) as [post E].
  destruct (trimEnd s) as [|c u]; [reflexivity|].
  rewrite E in H. exact H.
Qed.

Lemma trim_idem s : trim (trim s) = trim s.
Proof.
  unfold trim at 1.
  rewrite (trimStart_fixed (trim s)).
  - unfold trim, trimEnd. rewrite rev_involutive, trimStart_idem. reflexivity.
  - unfold trim. apply trimEnd_no_lead, trimStart_no_lead.
Qed.

Lemma trim_ungrouped s : ungrouped false s = true -> ungrouped false (trim s) = true.
Proof.
  intros H. destruct (trim_infix s) as (pre & post & E).
  rewrite E in H. apply ungrouped_app_r in H. apply ungrouped_app_l in H. exact H.
Qed.


(** ** Strings whose parentheses pair up *)




(** ** Splitting *)

Lemma split_cons sep s : exists l ls, split sep s = l :: ls.
Proof.
  induction s as [|c s' (l & ls & IH)]; simpl; [eauto|].
  destruct (N.eqb c sep); [eauto|]. rewrite IH. eauto.
Qed.

Lemma split_length sep s : (0 <? List.length (split sep s)) = true.
Proof. destruct (split_cons sep s) as (l & ls & ->). reflexivity. Qed.

Lemma clean_same : forall text, Part000.cleanJapaneseText text = cleanJapaneseText text.
Proof. reflexivity. Qed.

Lemma clean_some s : cleanJapaneseText (Some s) = trim (replace re_paren [] s).
Proof. destruct s; reflexivity. Qed.

Lemma clean_ungrouped text : ungrouped false (cleanJapaneseText text) = true.
Proof.
  destruct text as [s|]; [|reflexivity].
  rewrite clean_some. apply trim_ungrouped, replace_leaves_ungrouped.
Qed.

(** ** The normaliser: claims C5, C7, C8 and C10 *)

Example utf16_kanji :
  js "漢字（かんじ）" = [0x6F22; 0x5B57; 0xFF08; 0x304B; 0x3093; 0x3058; 0xFF09]%N.
Proof. reflexivity. Qed.

Example clean_kawaku : cleanJapaneseText (Some (js "渇く（かわく）")) = js "渇く".
Proof. reflexivity. Qed.

Example extract_hiragana_only : extractJapaneseOnly (Some (js "（ひらがなだけ）")) = [].
Proof. reflexivity. Qed.

Example extract_trailing :
  extractJapaneseOnly (Some (js "text (a) b (c)<BR />x")) = js "text".
Proof. reflexivity. Qed.

Example replace_empty_matches :
  replace [StarG (lit 0x61)] (js "-") (js "baac") = js "-b--c-".
Proof. reflexivity. Qed.




(** C8: cleaning a cleaned text changes nothing, in both files. *)
Theorem clean_idempotent : forall text,
  cleanJapaneseText (Some (cleanJapaneseText text)) = cleanJapaneseText text /\
  Part000.cleanJapaneseText (Some (Part000.cleanJapaneseText text)) =
    Part000.cleanJapaneseText text.
Proof.
  assert (H : forall text,
    cleanJapaneseText (Some (cleanJapaneseText text)) = cleanJapaneseText text).
  { intros text. rewrite clean_some.
    rewrite (replace_ungrouped _ _ (clean_ungrouped text)).
    destruct text as [s|]; [|reflexivity].
    rewrite clean_some. apply trim_idem. }
  intros text. split; [apply H|]. rewrite !clean_same. apply H.
Qed.

Lemma firstn_snoc (s : jsstring) : forall j x,
  nth_error s j = Some x -> firstn (S j) s = firstn j s ++ [x].
Proof.
  induction s as [|c s' IH]; intros [|j] x H; try discriminate.
  - injection H as ->. reflexivity.
  - simpl in H. apply IH in H. simpl in *. f_equal. exact H.
Qed.

(** C10: every substring the cleaning removes starts at an opening
    parenthesis of either width and ends at the next closing parenthesis
    of either width, none standing in between; the removed substrings and
    the code units kept make up the input; and a group whose opening and
    closing parentheses differ in width is removed like any other. *)
Theorem clean_removes_any_width_group :
  (forall s m, In m (matches re_paren s) ->
     exists o mid c, m = o :: mid ++ [c] /\ is_open o = true /\ is_close c = true /\
                     forallb (fun x => negb (is_close x)) mid = true) /\
  (forall s, flat_map raw (scan re_paren 0 s) = s /\
             cleanJapaneseText (Some s) = trim (flat_map (subst []) (scan re_paren 0 s))) /\
  (forall o mid c rest,
     is_open o = true -> is_close c = true ->
     forallb (fun x => negb (is_close x) && dot x) mid = true ->
     replace re_paren [] (o :: mid ++ c :: rest) = replace re_paren [] rest) /\
  matches re_paren (js "渇く(かわく）") = [js "(かわく）"] /\
  cleanJapaneseText (Some (js "渇く(かわく）")) = js "渇く" /\
  Part000.cleanJapaneseText (Some (js "渇く(かわく）")) = js "渇く".
Proof.
  split; [|split; [|split; [|repeat split]]].
  - intros s. remember (List.length s) as n eqn:Hn.
    assert (Hle : List.length s <= n) by lia. clear Hn.
    revert s Hle. induction n as [|n IH]; intros s Hle m Hin.
    + destruct s; [contradiction|simpl in Hle; lia].
    + destruct s as [|c s']; [contradiction|].
      simpl in Hle. rewrite matches_paren_cons in Hin.
      destruct (is_open c) eqn:Eo; [|apply (IH s'); [lia|exact Hin]].
      destruct (find_close s') as [k|] eqn:F; [|apply (IH s'); [lia|exact Hin]].
      destruct Hin as [<-|Hin]; [|apply (IH (skipn k s')); [rewrite length_skipn; lia|exact Hin]].
      destruct (find_close_pos _ _ F) as [j ->].
      destruct (find_close_shape _ _ F) as (c' & Hn & Hc & Hall).
      exists c, (firstn j s'), c'. repeat split; auto.
      * f_equal. apply firstn_snoc, Hn.
      * rewrite forallb_forall in Hall |- *. intros x Hx.
        specialize (Hall x Hx). apply andb_true_iff in Hall as [H _]. exact H.
  - intros s. split.
    + apply (scan_partition re_paren s 0). lia.
    + rewrite clean_some. reflexivity.
  - intros o mid c rest Ho Hc Hmid.
    rewrite replace_paren_cons, Ho, (find_close_found _ _ rest Hc Hmid).
    f_equal. clear Hmid. induction mid as [|x mid IH]; [reflexivity|exact IH].
Qed.

Lemma clean_removes_any_width_group_witness :
  In (js "(かわく）") (matches re_paren (js "渇く(かわく）")) /\
  exists o mid c, js "(かわく）" = o :: mid ++ [c] /\ is_open o = true /\ is_close c = true /\
                  forallb (fun x => negb (is_close x)) mid = true.
Proof.
  split; [left; reflexivity|].
  apply (proj1 clean_removes_any_width_group (js "渇く(かわく）")).
  left. reflexivity.
Defined.

(** C5, as stated, fails: when the text starts with a line break the
    first segment is empty and the result is the empty string, where the
    first non-empty segment would give [漢字]. *)
Lemma extract_empty_first_segment :
  extractJapaneseOnly (Some (js "<br>漢字（かんじ）")) = [] /\
  extractPrimaryText_spec (Some (js "<br>漢字（かんじ）")) = js "漢字".
Proof. split; reflexivity. Qed.

(** C5, amended: after the two markup passes the text is split on
    newline and the FIRST segment is the primary one, empty or not; the
    split never yields an empty array, so the cleaning of the whole raw
    input is never the result; an empty first segment gives the empty
    string; a non-empty one gives what the first non-empty segment
    gives; and the mixed content gives [漢字]. *)
Theorem extract_takes_first_segment :
  (forall t, t <> [] ->
     extractJapaneseOnly (Some t) =
     cleanJapaneseText (Some (replace re_trailing [] (trim
       (hd [] (split LF (replace re_tag [] (replace re_br [LF] t)))))))) /\
  (forall t, hd [] (split LF (replace re_tag [] (replace re_br [LF] t))) = [] ->
     extractJapaneseOnly (Some t) = []) /\
  (forall t, hd [] (split LF (replace re_tag [] (replace re_br [LF] t))) <> [] ->
     extractJapaneseOnly (Some t) = extractPrimaryText_spec (Some t)) /\
  extractJapaneseOnly (Some (js "漢字（かんじ）<br>kanji (Chinese character)")) = js "漢字".
Proof.
  assert (E : forall t, t <> [] ->
     extractJapaneseOnly (Some t) =
     cleanJapaneseText (Some (replace re_trailing [] (trim
       (hd [] (split LF (replace re_tag [] (replace re_br [LF] t)))))))).
  { intros [|c t] H; [congruence|].
    unfold extractJapaneseOnly. rewrite split_length. reflexivity. }
  split; [exact E|]. split; [|split; [|reflexivity]].
  - intros [|c t] H; [reflexivity|].
    rewrite E by discriminate. rewrite H. reflexivity.
  - intros [|c t] H; [contradiction H; reflexivity|].
    rewrite E by discriminate. unfold extractPrimaryText_spec, first_non_empty.
    destruct (split LF (replace re_tag [] (replace re_br [LF] (c :: t)))) as [|l ls];
      [contradiction H; reflexivity|].
    simpl in H |- *. rewrite eqb_nil. destruct l; [contradiction H; reflexivity|].
    reflexivity.
Qed.

Lemma extract_takes_first_segment_witness :
  js "漢字<br>kanji" <> [] /\
  extractJapaneseOnly (Some (js "漢字<br>kanji")) =
  cleanJapaneseText (Some (replace re_trailing [] (trim
    (hd [] (split LF (replace re_tag [] (replace re_br [LF] (js "漢字<br>kanji")))))))).
Proof.
  split; [discriminate|].
  apply (proj1 extract_takes_first_segment). discriminate.
Defined.

(** ** The exposed functions and the handlers *)

Lemma trim_clean text : trim (cleanJapaneseText text) = cleanJapaneseText text.
Proof.
  destruct text as [s|]; [|reflexivity].
  rewrite clean_some. apply trim_idem.
Qed.

Lemma stopSpeech_run w :
  Tts.stopSpeech w =
  (Ok tt,
   {| isSpeaking := false; currentUtterance := None;
      synth := if speaking (synth w) then cancel (synth w) else synth w;
      timers := timers w; clock := clock w; console := console w;
      next_id := next_id w; uncaught := uncaught w |}).
Proof.
  destruct w as [f cu s ts ck co nx un]. run_js.
  destruct (speaking s); reflexivity.
Qed.

(** What the delayed action of [src/data/tts.js] does, by whether the
    capability accepts the submission. *)
Lemma tts_timeout_run cleanText rate w :
  Tts.timeout_callback cleanText rate w =
  let u := built (next_id w) cleanText rate (voices (synth w)) in
  if accepting (synth w) then
    (Ok tt,
     {| isSpeaking := true; currentUtterance := Some u;
        synth := submit u (synth w);
        timers := timers w; clock := clock w; console := console w;
        next_id := S (next_id w); uncaught := uncaught w |})
  else
    (Ok tt,
     {| isSpeaking := false; currentUtterance := Some u;
        synth := synth w;
        timers := timers w; clock := clock w;
        console := console w ++ [tts_error rejected];
        next_id := S (next_id w); uncaught := uncaught w |}).
Proof.
  destruct w as [f cu s ts ck co nx un]. unfold built, chosen_voice. run_js.
  destruct (find _ (voices s)) as [g|];
    [|destruct (find _ (voices s)) as [j|]];
    destruct (accepting s); reflexivity.
Qed.

(** The same for the variant: a rejected submission leaves the action as
    an exception. *)
Lemma part000_timeout_run cleanText rate w :
  Part000.timeout_callback cleanText rate w =
  let u := built (next_id w) cleanText rate (voices (synth w)) in
  if accepting (synth w) then
    (Ok tt,
     {| isSpeaking := isSpeaking w; currentUtterance := Some u;
        synth := submit u (synth w);
        timers := timers w; clock := clock w; console := console w;
        next_id := S (next_id w); uncaught := uncaught w |})
  else
    (Throw rejected,
     {| isSpeaking := isSpeaking w; currentUtterance := Some u;
        synth := synth w;
        timers := timers w; clock := clock w; console := console w;
        next_id := S (next_id w); uncaught := uncaught w |}).
Proof.
  destruct w as [f cu s ts ck co nx un]. unfold built, chosen_voice. run_js.
  destruct (find _ (voices s)) as [g|];
    [|destruct (find _ (voices s)) as [j|]];
    destruct (accepting s); reflexivity.
Qed.

Lemma tts_speak_run text rate w :
  Tts.speakJapanese text rate w =
  if eqb (cleanJapaneseText text) [] then
    (Ok tt,
     with_console (console w ++ [empty_text_warning]) w)
  else
    (Ok tt,
     {| isSpeaking := false; currentUtterance := None;
        synth := if speaking (synth w) then cancel (synth w) else synth w;
        timers := timers w ++
          [{| due := clock w + Tts.delay; t_text := cleanJapaneseText text;
              t_rate := rate_or_default rate |}];
        clock := clock w; console := console w;
        next_id := next_id w; uncaught := uncaught w |}).
Proof.
  unfold Tts.speakJapanese. rewrite trim_clean, orb_diag.
  destruct (eqb (cleanJapaneseText text) []); [reflexivity|].
  unfold bind at 1. rewrite stopSpeech_run. reflexivity.
Qed.

Lemma part000_speak_run text rate w :
  Part000.speakJapanese text rate w =
  if eqb (cleanJapaneseText text) [] then (Ok tt, w)
  else
    (Ok tt,
     {| isSpeaking := isSpeaking w; currentUtterance := currentUtterance w;
        synth := if speaking (synth w) || pending (synth w)
                 then cancel (synth w) else synth w;
        timers := timers w ++
          [{| due := clock w + Part000.delay; t_text := cleanJapaneseText text;
              t_rate := rate_or_default rate |}];
        clock := clock w; console := console w;
        next_id := next_id w; uncaught := uncaught w |}).
Proof.
  unfold Part000.speakJapanese. rewrite clean_same.
  destruct (eqb (cleanJapaneseText text) []); [reflexivity|].
  destruct w as [f cu s ts ck co nx un]. run_js.
  destruct (speaking s); [reflexivity|].
  destruct (pending s); reflexivity.
Qed.

(** ** Stopping: claim C9 *)

(** C9: [stopSpeech] returns from every state, in both files (they hold
    the same text for it): right after it [isTTSSpeaking] is false and
    the stored utterance is cleared; the capability receives a cancel
    when, and only when, it reports that it is producing audio; timers
    and console are left alone; and from an idle page nothing changes at
    all. *)
Theorem stopSpeech_resets :
  Part000.stopSpeech = Tts.stopSpeech /\
  Part000.isTTSSpeaking = Tts.isTTSSpeaking /\
  forall w,
    let w' := snd (Tts.stopSpeech w) in
    fst (Tts.stopSpeech w) = Ok tt /\
    fst (Tts.isTTSSpeaking w') = Ok false /\
    isSpeaking w' = false /\
    currentUtterance w' = None /\
    received (synth w') =
      received (synth w) ++ (if speaking (synth w) then [Cancel] else []) /\
    (speaking (synth w) = false -> synth w' = synth w) /\
    timers w' = timers w /\
    console w' = console w /\
    uncaught w' = uncaught w /\
    (isSpeaking w = false -> currentUtterance w = None ->
     speaking (synth w) = false -> w' = w).
Proof.
  split; [reflexivity|]. split; [reflexivity|].
  intros w. cbv zeta. rewrite stopSpeech_run. simpl.
  repeat split.
  - destruct (speaking (synth w)); [reflexivity|]. rewrite app_nil_r. reflexivity.
  - intros ->. reflexivity.
  - intros Hf Hc Hs. destruct w as [f cu s ts ck co nx un]. simpl in *.
    subst. rewrite Hs. reflexivity.
Qed.

Lemma stopSpeech_resets_witness :
  let w := loaded [] true in
  isSpeaking w = false /\ currentUtterance w = None /\ speaking (synth w) = false /\
  snd (Tts.stopSpeech w) = w.
Proof.
  do 3 (split; [reflexivity|]).
  apply (proj2 (proj2 stopSpeech_resets) (loaded [] true)); reflexivity.
Defined.

(** ** Empty text: claim C6 *)

(** C6: in [src/data/tts.js] a call whose cleaned text is empty returns
    with the page as it was, one warning added to the console: flag,
    stored utterance, capability and timers are untouched.  The variant
    leaves the page as it was, too, and signals nothing: the warning of
    the claim is missing there. *)
Theorem speak_empty_is_noop : forall text rate w,
  cleanJapaneseText text = [] ->
  Tts.speakJapanese text rate w =
    (Ok tt, with_console (console w ++ [empty_text_warning]) w) /\
  Part000.speakJapanese text rate w = (Ok tt, w).
Proof.
  intros text rate w H.
  rewrite tts_speak_run, part000_speak_run, H. split; reflexivity.
Qed.

Lemma speak_empty_is_noop_witness :
  let w := snd (Tts.timeout_callback (js "test") (85 # 100)%Q (loaded [] true)) in
  cleanJapaneseText (Some (js "（かな）")) = [] /\
  Tts.speakJapanese (Some (js "（かな）")) None w =
    (Ok tt, with_console (console w ++ [empty_text_warning]) w) /\
  Part000.speakJapanese (Some (js "（かな）")) None w = (Ok tt, w).
Proof.
  split; [reflexivity|].
  apply (speak_empty_is_noop (Some (js "（かな）")) None). reflexivity.
Defined.

(** ** Error notifications: claim C3 *)


(** ** Failures: claim C4 *)

Lemma run_task_ok {A} (m : M A) w a w' : m w = (Ok a, w') -> run_task m w = w'.
Proof. unfold run_task. intros ->. reflexivity. Qed.

Lemma tts_onstart_run t w :
  Tts.onstart t w =
  (Ok tt,
   {| isSpeaking := true; currentUtterance := currentUtterance w; synth := synth w;
      timers := timers w; clock := clock w;
      console := console w ++
        [{| l_level := Log; l_msg := js "🔊 Speaking:"; l_arg := Some (substring0 50 t) |}];
      next_id := next_id w; uncaught := uncaught w |}).
Proof. destruct w; reflexivity. Qed.

Lemma part000_onstart_run t w :
  Part000.onstart t w =
  (Ok tt,
   {| isSpeaking := true; currentUtterance := currentUtterance w; synth := synth w;
      timers := timers w; clock := clock w;
      console := console w ++
        [{| l_level := Log; l_msg := js "🔊 Speaking:"; l_arg := Some t |}];
      next_id := next_id w; uncaught := uncaught w |}).
Proof. destruct w; reflexivity. Qed.

Lemma tts_task_uncaught w :
  (forall text rate, uncaught (run_task (Tts.speakJapanese text rate) w) = uncaught w) /\
  uncaught (run_task Tts.stopSpeech w) = uncaught w /\
  uncaught (run_task Tts.isTTSSpeaking w) = uncaught w /\
  (forall t r, uncaught (run_task (Tts.timeout_callback t r) w) = uncaught w) /\
  (forall t, uncaught (run_task (Tts.onstart t) w) = uncaught w) /\
  uncaught (run_task Tts.onend w) = uncaught w /\
  (forall k, uncaught (run_task (Tts.onerror k) w) = uncaught w).
Proof.
  unfold run_task. repeat match goal with |- _ /\ _ => split end; intros.
  - rewrite tts_speak_run. destruct (eqb _ _); reflexivity.
  - rewrite stopSpeech_run. reflexivity.
  - reflexivity.
  - rewrite tts_timeout_run. cbv zeta. destruct (accepting _); reflexivity.
  - rewrite tts_onstart_run. reflexivity.
  - destruct w; reflexivity.
  - destruct w as [f cu s ts ck co nx un]. run_js.
    destruct (negb _ && negb _); reflexivity.
Qed.

Lemma tts_fire_uncaught ts : forall w,
  uncaught (fold_left (fire tts_js) ts w) = uncaught w.
Proof.
  induction ts as [|t ts IH]; intros w; [reflexivity|].
  simpl. rewrite IH. unfold fire. simpl. apply tts_task_uncaught.
Qed.

Lemma tts_step_uncaught w e : uncaught (step tts_js w e) = uncaught w.
Proof.
  destruct (tts_task_uncaught w) as (H1 & H2 & H3 & _).
  destruct e as [text rate| | |ms|id|id|id kind]; simpl; auto.
  - rewrite tts_fire_uncaught. reflexivity.
  - destruct (submitted _ id) as [u|]; [|reflexivity].
    destruct (heads id (synth w) && negb (speaking (synth w))); [|reflexivity].
    destruct (u_onstart u); [|reflexivity].
    match goal with |- uncaught (run_task _ ?x) = _ =>
      destruct (tts_task_uncaught x) as (_ & _ & _ & _ & H & _) end.
    rewrite H. reflexivity.
  - destruct (submitted _ id) as [u|]; [|reflexivity].
    destruct (heads id (synth w) && speaking (synth w)); [|reflexivity].
    destruct (u_onend u); [|reflexivity].
    match goal with |- uncaught (run_task _ ?x) = _ =>
      destruct (tts_task_uncaught x) as (_ & _ & _ & _ & _ & H & _) end.
    rewrite H. reflexivity.
  - destruct (submitted _ id) as [u|]; [|reflexivity].
    destruct (u_onerror u); [|reflexivity].
    match goal with |- uncaught (run_task _ ?x) = _ =>
      destruct (tts_task_uncaught x) as (_ & _ & _ & _ & _ & _ & H) end.
    rewrite H. reflexivity.
Qed.

(** C4: in [src/data/tts.js] the three exposed functions and the delayed
    action return normally from every state, and no run of the page
    leaves an exception uncaught; a submission the capability rejects
    inside the delayed action is caught: the flag is false afterwards,
    one error is logged, nothing is submitted and no timer is armed
    again.  In the variant the [try] encloses the call of [setTimeout]
    only, and the same rejection leaves the delayed action as an
    exception, no diagnostic being logged. *)
Theorem submission_failure_absorbed :
  (forall text rate w, fst (Tts.speakJapanese text rate w) = Ok tt) /\
  (forall w, fst (Tts.stopSpeech w) = Ok tt /\
             Tts.isTTSSpeaking w = (Ok (isSpeaking w), w)) /\
  (forall t r w, fst (Tts.timeout_callback t r w) = Ok tt) /\
  (forall es w, uncaught (run tts_js w es) = uncaught w) /\
  (forall t r w, accepting (synth w) = false ->
     let w' := snd (Tts.timeout_callback t r w) in
     isSpeaking w' = false /\
     fst (Tts.isTTSSpeaking w') = Ok false /\
     console w' = console w ++ [tts_error rejected] /\
     synth w' = synth w /\
     timers w' = timers w) /\
  (forall t r w, accepting (synth w) = false ->
     let w' := snd (Part000.timeout_callback t r w) in
     fst (Part000.timeout_callback t r w) = Throw rejected /\
     console w' = console w /\
     isSpeaking w' = isSpeaking w) /\
  (let w := run part_000 (loaded [] false)
              [Call_speakJapanese (Some (js "test")) None; Elapse Part000.delay] in
   uncaught w = [rejected] /\ console w = []).
Proof.
  repeat match goal with |- _ /\ _ => split end.
  - intros. rewrite tts_speak_run. destruct (eqb _ _); reflexivity.
  - intros. rewrite stopSpeech_run. split; reflexivity.
  - intros. rewrite tts_timeout_run. cbv zeta. destruct (accepting _); reflexivity.
  - intros es. induction es as [|e es IH]; intros w; [reflexivity|].
    change (run tts_js w (e :: es)) with (run tts_js (step tts_js w e) es).
    rewrite IH. apply tts_step_uncaught.
  - intros t r w H. cbv zeta. rewrite tts_timeout_run. cbv zeta. rewrite H.
    repeat split.
  - intros t r w H. cbv zeta. rewrite part000_timeout_run. cbv zeta. rewrite H.
    repeat split.
  - split; reflexivity.
Qed.

Lemma submission_failure_absorbed_witness :
  let w := loaded [] false in
  accepting (synth w) = false /\
  console (snd (Tts.timeout_callback (js "test") (85 # 100)%Q w)) = [tts_error rejected] /\
  fst (Part000.timeout_callback (js "test") (85 # 100)%Q w) = Throw rejected.
Proof.
  split; [reflexivity|]. split.
  - apply (proj1 (proj2 (proj2 (proj2 (proj2 submission_failure_absorbed))))
             (js "test") (85 # 100)%Q (loaded [] false)).
    reflexivity.
  - apply (proj1 (proj2 (proj2 (proj2 (proj2 (proj2 submission_failure_absorbed)))))
             (js "test") (85 # 100)%Q (loaded [] false)).
    reflexivity.
Defined.

(** ** Rapid calls: claims C1 and C2 *)

Lemma eqb_false_of (s : jsstring) : s <> [] -> eqb s [] = false.
Proof. rewrite eqb_nil. destruct s; [congruence|reflexivity]. Qed.











(** C2, as stated, fails.  In [src/data/tts.js] [isTTSSpeaking] answers
    true as soon as the delayed submission has run, no start
    notification having been handled.  In the variant, after two rapid
    calls, the start notification of the first utterance makes it answer
    true while the stored utterance is the second. *)
Lemma speaking_reported_early :
  let t := Some (js "test") in
  let es := [Call_speakJapanese t None; Elapse Tts.delay] in
  let w := run tts_js (loaded [] true) es in
  let es' := rapid_pair t None 10 t None ++ [Elapse Part000.delay; Notify_start 0] in
  let w' := run part_000 (loaded [] true) es' in
  (fst (Tts.isTTSSpeaking w) = Ok true /\ start_notifications es = []) /\
  (fst (Part000.isTTSSpeaking w') = Ok true /\
   option_map u_id (currentUtterance w') = Some 1 /\
   start_notifications es' = [0]).
Proof. repeat split. Qed.

(** In the variant no task but the start handler raises the flag. *)
Lemma part000_tasks_flag w :
  (forall text rate,
     isSpeaking (run_task (Part000.speakJapanese text rate) w) = isSpeaking w) /\
  isSpeaking (run_task Part000.stopSpeech w) = false /\
  isSpeaking (run_task Part000.isTTSSpeaking w) = isSpeaking w /\
  (forall t r, isSpeaking (run_task (Part000.timeout_callback t r) w) = isSpeaking w) /\
  isSpeaking (run_task Part000.onend w) = false /\
  (forall k, isSpeaking (run_task (Part000.onerror k) w) = false).
Proof.
  unfold run_task. repeat match goal with |- _ /\ _ => split end; intros.
  - rewrite part000_speak_run. destruct (eqb _ _); reflexivity.
  - change Part000.stopSpeech with Tts.stopSpeech. rewrite stopSpeech_run. reflexivity.
  - reflexivity.
  - rewrite part000_timeout_run. cbv zeta. destruct (accepting _); reflexivity.
  - destruct w; reflexivity.
  - destruct w as [f cu s ts ck co nx un]. run_js.
    destruct (negb _); reflexivity.
Qed.

Lemma part000_fire_flag ts : forall w,
  isSpeaking (fold_left (fire part_000) ts w) = isSpeaking w.
Proof.
  induction ts as [|t ts IH]; intros w; [reflexivity|].
  simpl. rewrite IH. unfold fire. simpl. apply part000_tasks_flag.
Qed.

Lemma part000_step_flag w e :
  (forall id, e <> Notify_start id) ->
  isSpeaking (step part_000 w e) = true -> isSpeaking w = true.
Proof.
  intros He.
  destruct (part000_tasks_flag w) as (Hsp & Hst & Hrd & _).
  destruct e as [text rate| | |ms|id|id|id kind]; simpl.
  - rewrite Hsp. auto.
  - rewrite Hst. discriminate.
  - rewrite Hrd. auto.
  - rewrite part000_fire_flag. auto.
  - destruct (He id eq_refl).
  - destruct (submitted _ id) as [u|]; [|auto].
    destruct (heads id (synth w) && speaking (synth w)); [|auto].
    destruct (u_onend u); [|auto].
    match goal with |- isSpeaking (run_task _ ?x) = _ -> _ =>
      destruct (part000_tasks_flag x) as (_ & _ & _ & _ & H & _) end.
    rewrite H. discriminate.
  - destruct (submitted _ id) as [u|]; [|auto].
    destruct (u_onerror u); [|auto].
    match goal with |- isSpeaking (run_task _ ?x) = _ -> _ =>
      destruct (part000_tasks_flag x) as (_ & _ & _ & _ & _ & H) end.
    rewrite H. discriminate.
Qed.

Lemma part000_run_flag es : forall w,
  start_notifications es = [] ->
  isSpeaking (run part_000 w es) = true -> isSpeaking w = true.
Proof.
  induction es as [|e es IH]; intros w Hn H; [exact H|].
  change (run part_000 w (e :: es)) with (run part_000 (step part_000 w e) es) in H.
  assert (He : forall id, e <> Notify_start id).
  { intros id ->. simpl in Hn. discriminate. }
  apply (part000_step_flag w e He). apply IH; [|exact H].
  destruct e; simpl in Hn; try exact Hn. discriminate.
Qed.

(** C2, amended: [isTTSSpeaking] is a read of the flag and changes
    nothing.  The flag is raised by the start handler of any utterance,
    which does not look at the stored utterance: the start notification
    of an utterance that is not the current one is reported as well.  In
    [src/data/tts.js] the delayed action raises the flag itself when the
    submission is accepted, before any notification.  In the variant
    nothing but the start handler raises it: [speakJapanese], the
    delayed action and [isTTSSpeaking] leave the flag as it is,
    [stopSpeech] and the end and error handlers clear it, no event other
    than a start notification turns it from false to true, and on a page
    where it is false it stays false as long as no start notification is
    handled. *)
Theorem isTTSSpeaking_reads_flag :
  (forall w, Tts.isTTSSpeaking w = (Ok (isSpeaking w), w) /\
             Part000.isTTSSpeaking w = (Ok (isSpeaking w), w)) /\
  (forall t w,
     isSpeaking (snd (Tts.onstart t w)) = true /\
     currentUtterance (snd (Tts.onstart t w)) = currentUtterance w /\
     isSpeaking (snd (Part000.onstart t w)) = true /\
     currentUtterance (snd (Part000.onstart t w)) = currentUtterance w) /\
  (forall t r w,
     isSpeaking (snd (Tts.timeout_callback t r w)) = accepting (synth w) /\
     isSpeaking (snd (Part000.timeout_callback t r w)) = isSpeaking w) /\
  (forall sc w id u captured,
     sc = tts_js \/ sc = part_000 ->
     submitted (received (synth w)) id = Some u ->
     heads id (synth w) = true ->
     speaking (synth w) = false ->
     u_onstart u = Some captured ->
     isSpeaking (step sc w (Notify_start id)) = true /\
     currentUtterance (step sc w (Notify_start id)) = currentUtterance w) /\
  (forall text rate kind w,
     isSpeaking (snd (Part000.speakJapanese text rate w)) = isSpeaking w /\
     isSpeaking (snd (Part000.isTTSSpeaking w)) = isSpeaking w /\
     isSpeaking (snd (Part000.stopSpeech w)) = false /\
     isSpeaking (snd (Part000.onend w)) = false /\
     isSpeaking (snd (Part000.onerror kind w)) = false) /\
  (forall w e,
     (forall id, e <> Notify_start id) ->
     isSpeaking (step part_000 w e) = true -> isSpeaking w = true) /\
  (forall w es,
     isSpeaking w = false -> start_notifications es = [] ->
     isSpeaking (run part_000 w es) = false).
Proof.
  split; [intros w; split; reflexivity|].
  split; [intros t w; rewrite tts_onstart_run, part000_onstart_run; repeat split|].
  split; [|split; [|split; [|split]]].
  - intros t r w. rewrite tts_timeout_run, part000_timeout_run. cbv zeta.
    destruct (accepting (synth w)); split; reflexivity.
  - intros sc w id u captured Hsc Hsub Hhead Hsp Hon.
    unfold step. rewrite Hsub, Hhead, Hsp, Hon. cbn [andb negb].
    destruct Hsc as [-> | ->]; cbn [s_onstart tts_js part_000].
    + rewrite (run_task_ok _ _ _ _ (tts_onstart_run _ _)). split; reflexivity.
    + rewrite (run_task_ok _ _ _ _ (part000_onstart_run _ _)). split; reflexivity.
  - intros text rate kind w.
    rewrite part000_speak_run.
    change Part000.stopSpeech with Tts.stopSpeech. rewrite stopSpeech_run.
    split; [destruct (eqb _ _); reflexivity|].
    split; [reflexivity|]. split; [reflexivity|].
    split; [destruct w; reflexivity|].
    destruct w as [f cu s ts ck co nx un]. run_js.
    destruct (negb _); reflexivity.
  - apply part000_step_flag.
  - intros w es Hw Hn.
    destruct (isSpeaking (run part_000 w es)) eqn:E; [|reflexivity].
    apply (part000_run_flag es w Hn) in E. congruence.
Qed.

Lemma isTTSSpeaking_reads_flag_witness :
  let t := Some (js "test") in
  let es := rapid_pair t None 10 t None ++ [Elapse Part000.delay] in
  let w := run part_000 (loaded [] true) es in
  option_map u_id (currentUtterance w) = Some 1 /\
  heads 0 (synth w) = true /\
  isSpeaking (step part_000 w (Notify_start 0)) = true /\
  isSpeaking (loaded [] true) = false /\ start_notifications es = [] /\
  isSpeaking w = false.
Proof.
  split; [reflexivity|]. split; [reflexivity|]. split.
  - exact (proj1 (proj1 (proj2 (proj2 (proj2 isTTSSpeaking_reads_flag)))
      part_000
      (run part_000 (loaded [] true)
         (rapid_pair (Some (js "test")) None 10 (Some (js "test")) None
            ++ [Elapse Part000.delay]))
      0 (built 0 (js "test") (85 # 100)%Q []) (js "test")
      (or_intror eq_refl) eq_refl eq_refl eq_refl eq_refl)).
  - split; [reflexivity|]. split; [reflexivity|].
    exact (proj2 (proj2 (proj2 (proj2 (proj2 (proj2 isTTSSpeaking_reads_flag)))))
      (loaded [] true)
      (rapid_pair (Some (js "test")) None 10 (Some (js "test")) None
         ++ [Elapse Part000.delay])
      eq_refl eq_refl).
Defined.

(** * Further properties *)

(** ** Replacement in general *)

Lemma subseq_refl s : subseq s s.
Proof. induction s; [apply subseq_nil|apply subseq_keep; assumption]. Qed.

Lemma subseq_nil_l s : subseq [] s.
Proof. induction s; constructor; assumption. Qed.

Lemma subseq_trans a b c : subseq a b -> subseq b c -> subseq a c.
Proof.
  intros Hab Hbc. revert a Hab.
  induction Hbc as [|x b c Hbc IH|x b c Hbc IH]; intros a Hab.
  - exact Hab.
  - constructor. apply IH, Hab.
  - inversion Hab; subst.
    + apply subseq_drop. apply IH. assumption.
    + apply subseq_keep. apply IH. assumption.
Qed.

Lemma subseq_app a a' b b' : subseq a a' -> subseq b b' -> subseq (a ++ b) (a' ++ b').
Proof.
  intros Ha Hb. induction Ha; simpl;
    [exact Hb|apply subseq_drop|apply subseq_keep]; assumption.
Qed.

Lemma subseq_infix pre s post : subseq s (pre ++ s ++ post).
Proof.
  replace s with ([] ++ s ++ []) at 1 by (rewrite app_nil_r; reflexivity).
  apply subseq_app; [apply subseq_nil_l|].
  apply subseq_app; [apply subseq_refl|apply subseq_nil_l].
Qed.

Lemma subseq_length a b : subseq a b -> List.length a <= List.length b.
Proof. induction 1; simpl; lia. Qed.

Lemma subseq_forallb (p : N -> bool) a b :
  subseq a b -> forallb p b = true -> forallb p a = true.
Proof.
  intros Hs. induction Hs as [|c a b Hs IH|c a b Hs IH]; simpl; intros Hb; auto.
  - apply andb_true_iff in Hb as [_ Hb]. auto.
  - apply andb_true_iff in Hb as [-> Hb]. simpl. auto.
Qed.

(** Replacing every match by the empty string only leaves code units
    out. *)
Lemma scan_subseq (r : regex) : forall s k,
  subseq (flat_map (subst []) (scan r k s)) s.
Proof.
  induction s as [|c s' IH]; intros k.
  - destruct k; simpl; [destruct (exec r [])|]; constructor.
  - destruct k as [|k]; simpl.
    + destruct (exec r (c :: s')) as [[|n]|]; simpl.
      * apply subseq_keep. apply IH.
      * apply subseq_drop. apply IH.
      * apply subseq_keep. apply IH.
    + apply subseq_drop. apply IH.
Qed.

Lemma replace_subseq (r : regex) s : subseq (replace r [] s) s.
Proof. apply scan_subseq. Qed.

Lemma trim_subseq s : subseq (trim s) s.
Proof.
  destruct (trim_infix s) as (pre & post & E).
  rewrite E at 2. apply subseq_infix.
Qed.

Lemma trim_trimmed s : trimmed (trim s) = true.
Proof.
  unfold trimmed. apply andb_true_iff. split.
  - unfold trim. apply trimEnd_no_lead, trimStart_no_lead.
  - unfold trim, trimEnd. rewrite rev_involutive. apply trimStart_no_lead.
Qed.

Lemma trimmed_fixed s : trimmed s = true -> trim s = s.
Proof.
  unfold trimmed. intros H. apply andb_true_iff in H as [H1 H2].
  unfold trim. rewrite (trimStart_fixed _ H1).
  unfold trimEnd. rewrite (trimStart_fixed _ H2). apply rev_involutive.
Qed.

(** A match of an expression that begins with a class begins with a code
    unit of the class. *)
Lemma exec_chr_reject p r c s : p c = false -> exec (Chr p :: r) (c :: s) = None.
Proof. intros H. simpl. rewrite H. reflexivity. Qed.

(** Code units that cannot begin a match are copied. *)
Lemma replace_skip_prefix p r repl pre s :
  forallb (fun c => negb (p c)) pre = true ->
  replace (Chr p :: r) repl (pre ++ s) = pre ++ replace (Chr p :: r) repl s.
Proof.
  induction pre as [|c pre IH]; intros H; [reflexivity|].
  simpl in H. apply andb_true_iff in H as [Hc H]. apply negb_true_iff in Hc.
  unfold replace in *. simpl app.
  rewrite (scan_kept _ _ _ (exec_chr_reject p r c (pre ++ s) Hc)).
  simpl. f_equal. apply IH, H.
Qed.

Lemma replace_no_start p r repl s :
  forallb (fun c => negb (p c)) s = true -> replace (Chr p :: r) repl s = s.
Proof.
  intros H. rewrite <- (app_nil_r s) at 1.
  rewrite replace_skip_prefix by exact H.
  rewrite replace_nil by reflexivity. apply app_nil_r.
Qed.

(** How the matcher steps through an expression. *)
Lemma exec_chr_cons p r c s :
  exec (Chr p :: r) (c :: s) = if p c then option_map S (exec r s) else None.
Proof. reflexivity. Qed.

Lemma exec_starG_cons p r c s :
  exec (StarG p :: r) (c :: s) =
  if p c then
    match exec (StarG p :: r) s with
    | Some n => Some (S n)
    | None => exec r (c :: s)
    end
  else exec r (c :: s).
Proof. reflexivity. Qed.

Lemma exec_starG_nil p r : exec (StarG p :: r) [] = exec r [].
Proof. reflexivity. Qed.

Lemma exec_starL_eq p r s :
  exec (StarL p :: r) s =
  match exec r s with
  | Some n => Some n
  | None =>
    match s with
    | c :: s' => if p c then option_map S (exec (StarL p :: r) s') else None
    | [] => None
    end
  end.
Proof. destruct s; reflexivity. Qed.

Lemma exec_opt_cons p r c s :
  exec (Opt p :: r) (c :: s) =
  if p c then
    match exec r s with
    | Some n => Some (S n)
    | None => exec r (c :: s)
    end
  else exec r (c :: s).
Proof. reflexivity. Qed.

(** A match that covers the whole string is replaced as a whole. *)
Lemma replace_whole r repl c s :
  exec r (c :: s) = Some (S (List.length s)) -> exec r [] = None ->
  replace r repl (c :: s) = repl.
Proof.
  intros H Hnil. unfold replace. rewrite (scan_matched _ _ _ _ H).
  rewrite skipn_all. simpl. rewrite Hnil. simpl. apply app_nil_r.
Qed.

(** ** More on [cleanJapaneseText] *)

Lemma replace_paren_group o mid c rest :
  is_open o = true -> is_close c = true ->
  forallb (fun x => negb (is_close x) && dot x) mid = true ->
  replace re_paren [] (o :: mid ++ c :: rest) = replace re_paren [] rest.
Proof.
  intros Ho Hc Hmid.
  rewrite replace_paren_cons, Ho, (find_close_found _ _ rest Hc Hmid).
  f_equal. clear Hmid. induction mid as [|x mid IH]; [reflexivity|exact IH].
Qed.

(** X1: the cleaned text is the input with code units left out, nothing
    added and nothing reordered, so it is never longer than the input;
    and white space neither starts nor ends it.  The same holds of the
    copy in the variant file. *)
Theorem clean_is_trimmed_subsequence : forall s,
  subseq (cleanJapaneseText (Some s)) s /\
  List.length (cleanJapaneseText (Some s)) <= List.length s /\
  trimmed (cleanJapaneseText (Some s)) = true /\
  Part000.cleanJapaneseText (Some s) = cleanJapaneseText (Some s).
Proof.
  intros s.
  assert (H : subseq (cleanJapaneseText (Some s)) s).
  { rewrite clean_some.
    eapply subseq_trans; [apply trim_subseq|apply replace_subseq]. }
  split; [exact H|]. split; [apply subseq_length, H|].
  split; [|reflexivity].
  rewrite clean_some. apply trim_trimmed.
Qed.

(** X2: a text in which no opening parenthesis is followed on its line
    by a closing one is only trimmed; in particular a group that a line
    terminator splits stays. *)
Theorem clean_without_group : forall s,
  ungrouped false s = true ->
  cleanJapaneseText (Some s) = trim s /\
  Part000.cleanJapaneseText (Some s) = trim s.
Proof.
  intros s H.
  change (Part000.cleanJapaneseText (Some s)) with (cleanJapaneseText (Some s)).
  rewrite clean_some, (replace_ungrouped _ _ H).
  split; reflexivity.
Qed.

Lemma clean_without_group_witness :
  let s := [0x20; 0x28; 0x61; 0x0A; 0x62; 0x29; 0x20]%N in
  ungrouped false s = true /\
  cleanJapaneseText (Some s) = [0x28; 0x61; 0x0A; 0x62; 0x29]%N.
Proof.
  split; [reflexivity|].
  exact (proj1 (clean_without_group [0x20; 0x28; 0x61; 0x0A; 0x62; 0x29; 0x20]%N eq_refl)).
Defined.

(** X3: what stands before the first opening parenthesis is kept, the
    group that follows is removed whatever the widths of its two
    parentheses, and the cleaning goes on behind it; when nothing but a
    group follows the base text, the result is the base text trimmed. *)
Theorem clean_base_then_group : forall pre o mid c post,
  forallb (fun x => negb (is_open x)) pre = true ->
  is_open o = true -> is_close c = true ->
  forallb (fun x => negb (is_close x) && dot x) mid = true ->
  cleanJapaneseText (Some (pre ++ o :: mid ++ c :: post)) =
    trim (pre ++ replace re_paren [] post) /\
  cleanJapaneseText (Some (pre ++ o :: mid ++ [c])) = trim pre.
Proof.
  intros pre o mid c post Hpre Ho Hc Hmid.
  rewrite !clean_some.
  unfold re_paren at 1 3. rewrite !replace_skip_prefix by exact Hpre.
  fold re_paren. rewrite !replace_paren_group by assumption.
  rewrite replace_nil by reflexivity. rewrite app_nil_r. split; reflexivity.
Qed.

Lemma clean_base_then_group_witness :
  cleanJapaneseText (Some (js "渇く（かわく) のどが")) = js "渇く のどが".
Proof.
  exact (proj1 (clean_base_then_group (js "渇く") 0xFF08%N (js "かわく") 0x29%N (js " のどが")
           eq_refl eq_refl eq_refl eq_refl)).
Defined.

(** ** More on [extractJapaneseOnly] *)

Lemma open_cases c : is_open c = true -> c = 0xFF08%N \/ c = 0x28%N.
Proof.
  unfold is_open. intros H. apply orb_true_iff in H as [H|H];
    apply N.eqb_eq in H; auto.
Qed.

Lemma close_cases c : is_close c = true -> c = 0xFF09%N \/ c = 0x29%N.
Proof.
  unfold is_close. intros H. apply orb_true_iff in H as [H|H];
    apply N.eqb_eq in H; auto.
Qed.

Lemma open_not_space c : is_open c = true -> is_space c = false.
Proof. intros H. apply open_cases in H as [-> | ->]; reflexivity. Qed.

Lemma close_not_space c : is_close c = true -> is_space c = false.
Proof. intros H. apply close_cases in H as [-> | ->]; reflexivity. Qed.

Lemma space_not_open c : is_space c = true -> is_open c = false.
Proof.
  intros H. destruct (is_open c) eqn:E; [|reflexivity].
  rewrite (open_not_space c E) in H. discriminate.
Qed.

Lemma split_plain sep s :
  forallb (fun c => negb (N.eqb c sep)) s = true -> split sep s = [s].
Proof.
  induction s as [|c s IH]; simpl; intros H; [reflexivity|].
  apply andb_true_iff in H as [Hc H]. apply negb_true_iff in Hc.
  rewrite Hc, (IH H). reflexivity.
Qed.

Lemma split_hd_app sep a x :
  forallb (fun c => negb (N.eqb c sep)) a = true ->
  hd [] (split sep (a ++ sep :: x)) = a.
Proof.
  induction a as [|c a IH]; simpl; intros H.
  - rewrite N.eqb_refl. reflexivity.
  - apply andb_true_iff in H as [Hc H]. apply negb_true_iff in Hc.
    rewrite Hc. specialize (IH H).
    destruct (split sep (a ++ sep :: x)) as [|l ls]; simpl in *; congruence.
Qed.

Lemma split_hd_prefix sep s : exists rest, s = hd [] (split sep s) ++ rest.
Proof.
  induction s as [|c s [rest IH]]; simpl; [exists []; reflexivity|].
  destruct (N.eqb c sep); [exists (c :: s); reflexivity|].
  destruct (split sep s) as [|l ls]; simpl in *.
  - exists s. reflexivity.
  - exists rest. f_equal. exact IH.
Qed.

Lemma split_hd_no_sep sep s :
  forallb (fun c => negb (N.eqb c sep)) (hd [] (split sep s)) = true.
Proof.
  induction s as [|c s IH]; simpl; [reflexivity|].
  destruct (N.eqb c sep) eqn:E; [reflexivity|].
  destruct (split sep s) as [|l ls]; simpl in *; rewrite E; simpl; auto.
Qed.

Lemma trimStart_spaces sp x rest :
  forallb is_space sp = true -> is_space x = false ->
  trimStart (sp ++ x :: rest) = x :: rest.
Proof.
  induction sp as [|c sp IH]; simpl; intros H Hx.
  - rewrite Hx. reflexivity.
  - apply andb_true_iff in H as [-> H]. auto.
Qed.

Lemma forallb_rev_true (p : N -> bool) l :
  forallb p l = true -> forallb p (rev l) = true.
Proof.
  rewrite !forallb_forall. intros H x Hx. apply H, in_rev, Hx.
Qed.

Lemma trimEnd_spaces body x ws :
  forallb is_space ws = true -> is_space x = false ->
  trimEnd (body ++ x :: ws) = body ++ [x].
Proof.
  intros H Hx. unfold trimEnd.
  rewrite rev_app_distr. simpl. rewrite <- app_assoc. simpl.
  rewrite trimStart_spaces; [|apply forallb_rev_true; exact H|exact Hx].
  simpl. rewrite rev_involutive. reflexivity.
Qed.

(** *** The trailing-group expression *)

Lemma exec_spaces_eos s :
  exec [StarG is_space; Eos] s =
  if forallb is_space s then Some (List.length s) else None.
Proof.
  induction s as [|c s IH]; [reflexivity|].
  rewrite exec_starG_cons, IH. simpl forallb.
  destruct (is_space c); [|reflexivity].
  destruct (forallb is_space s); reflexivity.
Qed.

(** Whatever the lazy star settles on, the end anchor makes the match
    run to the end of the string. *)
Lemma exec_trailing_tail_length s n :
  exec [StarL dot; Chr is_close; StarG is_space; Eos] s = Some n ->
  n = List.length s.
Proof.
  revert n. induction s as [|c s IH]; intros n; rewrite exec_starL_eq.
  - cbn. discriminate.
  - rewrite exec_chr_cons, exec_spaces_eos.
    assert (Hrec : (if dot c
                    then option_map S
                           (exec [StarL dot; Chr is_close; StarG is_space; Eos] s)
                    else None) = Some n -> n = List.length (c :: s)).
    { destruct (dot c); [|discriminate].
      destruct (exec [StarL dot; Chr is_close; StarG is_space; Eos] s) as [m|];
        cbn [option_map]; [|discriminate].
      intros [= <-]. cbn [List.length]. f_equal. apply IH. reflexivity. }
    destruct (is_close c); [|exact Hrec].
    destruct (forallb is_space s); cbn [option_map]; [|exact Hrec].
    intros [= <-]. reflexivity.
Qed.

Lemma exec_trailing_tail mid c ws :
  forallb dot mid = true -> is_close c = true -> forallb is_space ws = true ->
  exec [StarL dot; Chr is_close; StarG is_space; Eos] (mid ++ c :: ws) =
  Some (List.length (mid ++ c :: ws)).
Proof.
  intros Hmid Hc Hws.
  assert (H : exists n,
    exec [StarL dot; Chr is_close; StarG is_space; Eos] (mid ++ c :: ws) = Some n).
  { induction mid as [|x mid IH]; simpl app; rewrite exec_starL_eq.
    - rewrite exec_chr_cons, Hc, exec_spaces_eos, Hws. simpl. eauto.
    - simpl in Hmid. apply andb_true_iff in Hmid as [Hx Hmid].
      destruct (exec [Chr is_close; StarG is_space; Eos] (x :: mid ++ c :: ws));
        [eauto|].
      rewrite Hx. destruct (IH Hmid) as [n ->]. simpl. eauto. }
  destruct H as [n H]. rewrite H. f_equal. apply (exec_trailing_tail_length _ _ H).
Qed.

Lemma exec_trailing_group sp o mid c ws :
  forallb is_space sp = true -> is_open o = true ->
  forallb dot mid = true -> is_close c = true -> forallb is_space ws = true ->
  exec re_trailing (sp ++ o :: mid ++ c :: ws) =
  Some (List.length (sp ++ o :: mid ++ c :: ws)).
Proof.
  intros Hsp Ho Hmid Hc Hws. unfold re_trailing.
  induction sp as [|x sp IH]; simpl app.
  - rewrite exec_starG_cons, (open_not_space _ Ho), exec_chr_cons, Ho.
    rewrite (exec_trailing_tail _ _ _ Hmid Hc Hws). reflexivity.
  - simpl in Hsp. apply andb_true_iff in Hsp as [Hx Hsp].
    rewrite exec_starG_cons, Hx, (IH Hsp). reflexivity.
Qed.

(** No match starts inside a text that holds no opening parenthesis and
    does not end in white space. *)
Lemma exec_trailing_none l rest :
  l <> [] -> no_lead (rev l) = true ->
  forallb (fun x => negb (is_open x)) l = true ->
  exec re_trailing (l ++ rest) = None.
Proof.
  unfold re_trailing.
  induction l as [|x l IH]; intros Hne Hlast Hopen; [congruence|].
  simpl in Hopen. apply andb_true_iff in Hopen as [Hx Hopen].
  apply negb_true_iff in Hx.
  simpl app. rewrite exec_starG_cons, exec_chr_cons, Hx.
  destruct l as [|y l].
  - simpl in Hlast. apply negb_true_iff in Hlast. rewrite Hlast. reflexivity.
  - rewrite IH; [destruct (is_space x); reflexivity|discriminate| |exact Hopen].
    simpl rev in *. destruct (rev l ++ [y]) eqn:E.
    + destruct (rev l); discriminate.
    + exact Hlast.
Qed.

Lemma replace_trailing_body body tail :
  forallb (fun x => negb (is_open x)) body = true ->
  (body <> [] -> no_lead (rev body) = true) ->
  tail <> [] -> exec re_trailing tail = Some (List.length tail) ->
  replace re_trailing [] (body ++ tail) = body.
Proof.
  intros Hopen Hlast Hne Htail.
  induction body as [|x body IH].
  - destruct tail as [|t tail]; [congruence|].
    apply replace_whole; [exact Htail|reflexivity].
  - simpl app. unfold replace.
    rewrite scan_kept.
    + simpl. f_equal. apply IH.
      * simpl in Hopen. apply andb_true_iff in Hopen as [_ H]. exact H.
      * intros Hb. specialize (Hlast ltac:(discriminate)).
        simpl rev in Hlast. destruct (rev body) eqn:E.
        -- apply (f_equal (@rev N)) in E. rewrite rev_involutive in E.
           simpl in E. congruence.
        -- exact Hlast.
    + apply (exec_trailing_none (x :: body) tail);
        [discriminate|apply Hlast; discriminate|exact Hopen].
Qed.

(** *** The primary line *)

Lemma extract_some t :
  t <> [] ->
  extractJapaneseOnly (Some t) =
  cleanJapaneseText (Some (replace re_trailing [] (trim
    (hd [] (split LF (replace re_tag [] (replace re_br [LF] t))))))).
Proof.
  destruct t as [|c t]; [congruence|]. intros _.
  unfold extractJapaneseOnly. rewrite split_length. reflexivity.
Qed.

Lemma plain_no_lt s :
  forallb plain s = true -> forallb (fun c => negb (lit LT c)) s = true.
Proof.
  rewrite !forallb_forall. intros H x Hx. specialize (H x Hx).
  unfold plain in H. apply andb_true_iff in H as [H _]. exact H.
Qed.

Lemma plain_no_lf s :
  forallb plain s = true -> forallb (fun c => negb (N.eqb c LF)) s = true.
Proof.
  rewrite !forallb_forall. intros H x Hx. specialize (H x Hx).
  unfold plain in H. apply andb_true_iff in H as [_ H]. exact H.
Qed.

(** A text without [<] and without newline is its own primary line. *)
Lemma extract_plain line :
  forallb plain line = true ->
  extractJapaneseOnly (Some line) =
  cleanJapaneseText (Some (replace re_trailing [] (trim line))).
Proof.
  intros H. destruct line as [|c l]; [reflexivity|].
  rewrite extract_some by discriminate.
  unfold re_br, re_tag.
  rewrite (replace_no_start _ _ _ _ (plain_no_lt _ H)).
  rewrite (replace_no_start _ _ _ _ (plain_no_lt _ H)).
  rewrite (split_plain _ _ (plain_no_lf _ H)). reflexivity.
Qed.

(** X4: when the primary line ends in a parenthesised group, the
    trailing-group expression matches from the FIRST opening parenthesis
    of the line, so everything from there on is dropped, text between
    groups included, and the base text before it is the result. *)
Theorem extract_drops_from_first_paren : forall body sp o mid c ws,
  forallb plain (body ++ sp ++ o :: mid ++ c :: ws) = true ->
  trimmed body = true ->
  forallb (fun x => negb (is_open x)) body = true ->
  forallb is_space sp = true ->
  is_open o = true -> forallb dot mid = true -> is_close c = true ->
  forallb is_space ws = true ->
  replace re_trailing [] (trim (body ++ sp ++ o :: mid ++ c :: ws)) = body /\
  extractJapaneseOnly (Some (body ++ sp ++ o :: mid ++ c :: ws)) = body.
Proof.
  intros body sp o mid c ws Hplain Htrim Hopen Hsp Ho Hmid Hc Hws.
  assert (Hclean : cleanJapaneseText (Some body) = body).
  { rewrite clean_some. unfold re_paren.
    rewrite (replace_no_start _ _ _ _ Hopen). apply trimmed_fixed, Htrim. }
  assert (Hrep : replace re_trailing []
                   (trim (body ++ sp ++ o :: mid ++ c :: ws)) = body).
  { pose proof Htrim as Ht. unfold trimmed in Ht.
    apply andb_true_iff in Ht as [Hlead Hlast].
    destruct body as [|x body].
    - simpl app. unfold trim.
      rewrite (trimStart_spaces _ _ _ Hsp (open_not_space _ Ho)).
      change (o :: mid ++ c :: ws) with ((o :: mid) ++ c :: ws).
      rewrite (trimEnd_spaces _ _ _ Hws (close_not_space _ Hc)).
      simpl app. apply replace_whole; [|reflexivity].
      pose proof (exec_trailing_group [] o mid c [] eq_refl Ho Hmid Hc eq_refl) as E.
      simpl app in E. rewrite E. simpl. rewrite !length_app. simpl. reflexivity.
    - unfold trim. rewrite trimStart_fixed by exact Hlead.
      replace ((x :: body) ++ sp ++ o :: mid ++ c :: ws)
        with (((x :: body) ++ sp ++ o :: mid) ++ c :: ws)
        by (rewrite <- !app_assoc; reflexivity).
      rewrite (trimEnd_spaces _ _ _ Hws (close_not_space _ Hc)).
      replace (((x :: body) ++ sp ++ o :: mid) ++ [c])
        with ((x :: body) ++ (sp ++ o :: mid ++ [c]))
        by (rewrite <- !app_assoc; reflexivity).
      apply replace_trailing_body; [exact Hopen|intros _; exact Hlast| |].
      + destruct sp; discriminate.
      + apply (exec_trailing_group sp o mid c [] Hsp Ho Hmid Hc eq_refl). }
  split; [exact Hrep|].
  rewrite (extract_plain _ Hplain), Hrep. exact Hclean.
Qed.

Lemma extract_drops_from_first_paren_witness :
  extractJapaneseOnly (Some (js "日本語（にほんご）です (tiếng Nhật) ")) = js "日本語".
Proof.
  exact (proj2 (extract_drops_from_first_paren
    (js "日本語") [] 0xFF08%N (js "にほんご）です (tiếng Nhật") 0x29%N (js " ")
    eq_refl eq_refl eq_refl eq_refl eq_refl eq_refl eq_refl eq_refl)).
Defined.

(** *** Line breaks and tags *)

Lemma exec_br_tail ws slash rest :
  forallb is_space ws = true ->
  exec [StarG is_space; Opt (lit 0x2F%N); Chr (lit 0x3E%N)]
       (ws ++ slash_part slash ++ GT :: rest) =
  Some (List.length (ws ++ slash_part slash ++ [GT])).
Proof.
  induction ws as [|x ws IH]; intros H.
  - destruct slash; reflexivity.
  - simpl in H. apply andb_true_iff in H as [Hx H].
    change ((x :: ws) ++ slash_part slash ++ GT :: rest)
      with (x :: (ws ++ slash_part slash ++ GT :: rest)).
    rewrite exec_starG_cons, Hx, (IH H). reflexivity.
Qed.

Lemma br_tag_app b r ws slash rest :
  br_tag b r ws slash ++ rest = LT :: b :: r :: ws ++ slash_part slash ++ GT :: rest.
Proof.
  unfold br_tag. simpl. rewrite <- !app_assoc. reflexivity.
Qed.

Lemma exec_br b r ws slash rest :
  lit_i 0x62%N 0x42%N b = true -> lit_i 0x72%N 0x52%N r = true ->
  forallb is_space ws = true ->
  exec re_br (br_tag b r ws slash ++ rest) =
  Some (List.length (br_tag b r ws slash)).
Proof.
  intros Hb Hr Hws. rewrite br_tag_app. unfold re_br.
  rewrite exec_chr_cons. change (lit 0x3C%N LT) with true. cbv iota.
  rewrite exec_chr_cons, Hb, exec_chr_cons, Hr.
  rewrite (exec_br_tail ws slash rest Hws). reflexivity.
Qed.

(** A line-break tag becomes one newline. *)
Lemma replace_br_tag b r ws slash rest :
  lit_i 0x62%N 0x42%N b = true -> lit_i 0x72%N 0x52%N r = true ->
  forallb is_space ws = true ->
  replace re_br [LF] (br_tag b r ws slash ++ rest) = LF :: replace re_br [LF] rest.
Proof.
  intros Hb Hr Hws.
  pose proof (exec_br b r ws slash rest Hb Hr Hws) as E.
  change (br_tag b r ws slash ++ rest)
    with (LT :: (b :: r :: ws ++ slash_part slash ++ [GT]) ++ rest) in *.
  change (List.length (br_tag b r ws slash))
    with (S (List.length (b :: r :: ws ++ slash_part slash ++ [GT]))) in E.
  unfold replace. rewrite (scan_matched _ _ _ _ E).
  rewrite skipn_app, Nat.sub_diag, skipn_all. reflexivity.
Qed.

(** X5: of a text whose first line-break tag, in any of its spellings,
    comes after a part without [<] and without newline, only that part
    counts: whatever follows the tag is ignored. *)
Theorem extract_ignores_after_br : forall a b r ws slash rest,
  forallb plain a = true ->
  lit_i 0x62%N 0x42%N b = true -> lit_i 0x72%N 0x52%N r = true ->
  forallb is_space ws = true ->
  extractJapaneseOnly (Some (a ++ br_tag b r ws slash ++ rest)) =
  extractJapaneseOnly (Some a).
Proof.
  intros a b r ws slash rest Ha Hb Hr Hws.
  rewrite extract_some by (unfold br_tag; destruct a; discriminate).
  rewrite (extract_plain _ Ha).
  unfold re_br at 1. rewrite (replace_skip_prefix _ _ _ _ _ (plain_no_lt _ Ha)).
  fold re_br. rewrite (replace_br_tag _ _ _ _ _ Hb Hr Hws).
  assert (Hpre : forallb (fun c => negb (lit LT c)) (a ++ [LF]) = true).
  { rewrite forallb_app, (plain_no_lt _ Ha). reflexivity. }
  replace (a ++ LF :: replace re_br [LF] rest)
    with ((a ++ [LF]) ++ replace re_br [LF] rest)
    by (rewrite <- app_assoc; reflexivity).
  unfold re_tag at 1. rewrite (replace_skip_prefix _ _ _ _ _ Hpre). fold re_tag.
  rewrite <- app_assoc. simpl app.
  rewrite (split_hd_app _ _ _ (plain_no_lf _ Ha)). reflexivity.
Qed.

Lemma extract_ignores_after_br_witness :
  extractJapaneseOnly (Some (js "水を飲む" ++ br_tag 0x42 0x72 (js " ") true ++ js "uống nước<br>x")) =
  extractJapaneseOnly (Some (js "水を飲む")).
Proof.
  exact (extract_ignores_after_br (js "水を飲む") 0x42%N 0x72%N (js " ") true
           (js "uống nước<br>x") eq_refl eq_refl eq_refl eq_refl).
Defined.

(** *** The tag expression *)

Lemma exec_tag_tail s :
  exec [StarG (fun c => negb (lit 0x3E%N c)); Chr (lit 0x3E%N)] s = find_gt s.
Proof.
  induction s as [|c s IH]; [reflexivity|].
  rewrite exec_starG_cons, IH, exec_chr_cons. simpl find_gt.
  unfold lit, GT. rewrite (N.eqb_sym c 0x3E%N).
  destruct (N.eqb 0x3E%N c); simpl; [reflexivity|].
  destruct (find_gt s); reflexivity.
Qed.

Lemma exec_tag c s :
  exec re_tag (c :: s) = if N.eqb c LT then option_map S (find_gt s) else None.
Proof.
  unfold re_tag. rewrite exec_chr_cons, exec_tag_tail.
  unfold lit, LT. rewrite (N.eqb_sym c 0x3C%N). reflexivity.
Qed.

Lemma find_gt_le s n : find_gt s = Some n -> n <= List.length s.
Proof.
  revert n. induction s as [|c s IH]; simpl; intros n H; [discriminate|].
  destruct (N.eqb c GT); [injection H as <-; lia|].
  destruct (find_gt s) as [m|]; [|discriminate].
  injection H as <-. specialize (IH _ eq_refl). lia.
Qed.

Lemma replace_tag_cons c s :
  replace re_tag [] (c :: s) =
  if N.eqb c LT then
    match find_gt s with
    | Some n => replace re_tag [] (skipn n s)
    | None => c :: replace re_tag [] s
    end
  else c :: replace re_tag [] s.
Proof.
  unfold replace. pose proof (exec_tag c s) as E.
  destruct (N.eqb c LT).
  - destruct (find_gt s) as [n|] eqn:F.
    + rewrite (scan_matched re_tag c s n E). reflexivity.
    + rewrite (scan_kept re_tag c s E). reflexivity.
  - rewrite (scan_kept re_tag c s E). reflexivity.
Qed.

Lemma untagged_weaken seen s : untagged seen s = true -> untagged false s = true.
Proof.
  destruct seen; [|auto].
  induction s as [|c s IH]; simpl; [auto|].
  destruct (N.eqb c GT); [discriminate|].
  destruct (N.eqb c LT); auto.
Qed.

Lemma untagged_subseq a b :
  subseq a b -> forall seen, untagged seen b = true -> untagged seen a = true.
Proof.
  intros Hs. induction Hs as [|c a b Hs IH|c a b Hs IH]; intros seen H; [exact H| |].
  - simpl in H. destruct (N.eqb c GT).
    + apply andb_true_iff in H as [_ H]. auto.
    + destruct (N.eqb c LT); [|auto].
      destruct seen; [auto|]. apply (untagged_weaken true), IH, H.
  - simpl in *. destruct (N.eqb c GT).
    + apply andb_true_iff in H as [-> H]. simpl. auto.
    + destruct (N.eqb c LT); auto.
Qed.

Lemma replace_leaves_untagged_aux n : forall s seen,
  List.length s <= n ->
  (seen = true -> find_gt s = None) ->
  untagged seen (replace re_tag [] s) = true.
Proof.
  induction n as [|n IH]; intros s seen Hlen Hseen.
  - destruct s; [reflexivity|simpl in Hlen; lia].
  - destruct s as [|c s']; [reflexivity|].
    simpl in Hlen. rewrite replace_tag_cons.
    destruct (N.eqb c LT) eqn:El.
    + assert (Eg : N.eqb c GT = false).
      { apply N.eqb_eq in El. subst c. reflexivity. }
      destruct (find_gt s') as [k|] eqn:F.
      * destruct seen.
        -- specialize (Hseen eq_refl). simpl in Hseen. rewrite Eg, F in Hseen.
           discriminate.
        -- apply IH; [rewrite length_skipn; lia|discriminate].
      * simpl. rewrite Eg, El. apply IH; [lia|auto].
    + simpl. rewrite El. destruct (N.eqb c GT) eqn:Eg.
      * destruct seen.
        -- specialize (Hseen eq_refl). simpl in Hseen. rewrite Eg in Hseen.
           discriminate.
        -- simpl. apply IH; [lia|discriminate].
      * apply IH; [lia|].
        intros ->. specialize (Hseen eq_refl). simpl in Hseen. rewrite Eg in Hseen.
        destruct (find_gt s'); [discriminate|reflexivity].
Qed.

Lemma replace_leaves_untagged s : untagged false (replace re_tag [] s) = true.
Proof. apply (replace_leaves_untagged_aux (List.length s)); [lia|discriminate]. Qed.

(** The result is made of code units of the primary line. *)
Lemma extract_subseq t :
  subseq (extractJapaneseOnly (Some t))
         (hd [] (split LF (replace re_tag [] (replace re_br [LF] t)))).
Proof.
  destruct t as [|c t]; [apply subseq_nil_l|].
  rewrite extract_some by discriminate. rewrite clean_some.
  eapply subseq_trans; [apply trim_subseq|].
  eapply subseq_trans; [apply replace_subseq|].
  eapply subseq_trans; [apply replace_subseq|apply trim_subseq].
Qed.

(** X6: whatever the input, the extracted text is a single line (it
    holds no newline), holds no markup tag (no [<] followed by a [>]),
    holds no parenthesised group, and neither starts nor ends with white
    space. *)
Theorem extract_is_clean_line : forall text,
  forallb (fun c => negb (N.eqb c LF)) (extractJapaneseOnly text) = true /\
  untagged false (extractJapaneseOnly text) = true /\
  ungrouped false (extractJapaneseOnly text) = true /\
  trimmed (extractJapaneseOnly text) = true.
Proof.
  intros [t|]; [|repeat split].
  split; [|split; [|split]].
  - apply (subseq_forallb _ _ _ (extract_subseq t)), split_hd_no_sep.
  - apply (untagged_subseq _ _ (extract_subseq t)).
    destruct (split_hd_prefix LF (replace re_tag [] (replace re_br [LF] t)))
      as [rest E].
    pose proof (replace_leaves_untagged (replace re_br [LF] t)) as H.
    rewrite E in H. eapply untagged_subseq; [|exact H].
    rewrite <- (app_nil_r (hd _ _)) at 1.
    apply subseq_app; [apply subseq_refl|apply subseq_nil_l].
  - destruct t as [|c t]; [reflexivity|].
    rewrite extract_some by discriminate. apply clean_ungrouped.
  - destruct t as [|c t]; [reflexivity|].
    rewrite extract_some by discriminate. rewrite clean_some. apply trim_trimmed.
Qed.

(** ** The voice of an utterance *)

Lemma chosen_voice_sound vs v :
  chosen_voice vs = Some v -> In v vs /\ v_lang v = ja_JP.
Proof.
  unfold chosen_voice.
  destruct (find _ vs) as [g|] eqn:E.
  - intros [= <-]. apply find_some in E as [Hin H].
    apply andb_true_iff in H as [H _]. apply eqb_eq in H. auto.
  - intros H. apply find_some in H as [Hin H]. apply eqb_eq in H. auto.
Qed.

Lemma chosen_voice_none vs :
  chosen_voice vs = None <-> forall v, In v vs -> v_lang v <> ja_JP.
Proof.
  unfold chosen_voice. split.
  - destruct (find _ vs) as [g|]; [discriminate|].
    intros H v Hin Hl. apply (find_none _ _ H) in Hin.
    apply eqb_eq in Hl. congruence.
  - intros H. destruct (find _ vs) as [g|] eqn:E.
    + apply find_some in E as [Hin E]. apply andb_true_iff in E as [E _].
      apply eqb_eq in E. destruct (H g Hin E).
    + destruct (find (fun v => eqb (v_lang v) ja_JP) vs) as [j|] eqn:E'; [|reflexivity].
      apply find_some in E' as [Hin E']. apply eqb_eq in E'. destruct (H j Hin E').
Qed.

Lemma chosen_voice_prefers_google vs g :
  In g vs -> v_lang g = ja_JP -> is_google g = true ->
  exists v, chosen_voice vs = Some v /\ is_google v = true.
Proof.
  intros Hin Hl Hg. unfold chosen_voice.
  destruct (find _ vs) as [v|] eqn:E.
  - exists v. split; [reflexivity|].
    apply find_some in E as [_ E]. apply andb_true_iff in E as [_ E]. exact E.
  - apply (find_none _ _ E) in Hin. apply eqb_eq in Hl.
    unfold is_google in Hg. rewrite Hl, Hg in Hin. discriminate.
Qed.

(** X7: the utterance the delayed action builds, in either file, gets
    its voice from the catalogue as it is when the action runs: a voice
    of language [ja-JP] whenever the catalogue has one, one whose name
    holds [Google] whenever the catalogue has such a [ja-JP] voice, and
    none exactly when the catalogue has no [ja-JP] voice. *)
Theorem delayed_action_picks_voice : forall t r w,
  exists u,
    currentUtterance (snd (Tts.timeout_callback t r w)) = Some u /\
    currentUtterance (snd (Part000.timeout_callback t r w)) = Some u /\
    (accepting (synth w) = true ->
       received (synth (snd (Tts.timeout_callback t r w))) =
         received (synth w) ++ [Speak u] /\
       received (synth (snd (Part000.timeout_callback t r w))) =
         received (synth w) ++ [Speak u]) /\
    (forall v, u_voice u = Some v -> In v (voices (synth w)) /\ v_lang v = ja_JP) /\
    (u_voice u = None <-> forall v, In v (voices (synth w)) -> v_lang v <> ja_JP) /\
    (forall g, In g (voices (synth w)) -> v_lang g = ja_JP -> is_google g = true ->
       exists v, u_voice u = Some v /\ is_google v = true).
Proof.
  intros t r w. exists (built (next_id w) t r (voices (synth w))).
  rewrite tts_timeout_run, part000_timeout_run. cbv zeta.
  split; [destruct (accepting (synth w)); reflexivity|].
  split; [destruct (accepting (synth w)); reflexivity|].
  split; [intros ->; split; reflexivity|].
  split; [apply chosen_voice_sound|].
  split; [apply chosen_voice_none|apply chosen_voice_prefers_google].
Qed.

Lemma delayed_action_picks_voice_witness :
  let vs := [ {| v_lang := js "en-US"; v_name := js "Google US English" |};
              {| v_lang := js "ja-JP"; v_name := js "Kyoko" |};
              {| v_lang := js "ja-JP"; v_name := js "Google 日本語" |} ] in
  exists u,
    currentUtterance (snd (Tts.timeout_callback (js "水") 1%Q (loaded vs true))) = Some u /\
    exists v, u_voice u = Some v /\ is_google v = true.
Proof.
  cbv zeta.
  destruct (delayed_action_picks_voice (js "水") 1%Q
    (loaded [ {| v_lang := js "en-US"; v_name := js "Google US English" |};
              {| v_lang := js "ja-JP"; v_name := js "Kyoko" |};
              {| v_lang := js "ja-JP"; v_name := js "Google 日本語" |} ] true))
    as (u & Hu & _ & _ & _ & _ & Hg).
  exists u. split; [exact Hu|].
  apply (Hg {| v_lang := js "ja-JP"; v_name := js "Google 日本語" |}).
  - right. right. left. reflexivity.
  - reflexivity.
  - reflexivity.
Defined.

(** ** What reaches the capability *)

Lemma clean_speakable text :
  cleanJapaneseText text <> [] -> speakable (cleanJapaneseText text).
Proof.
  intros H. split; [exact H|]. split; [|apply clean_ungrouped].
  destruct text as [s|]; [|reflexivity].
  rewrite clean_some. apply trim_trimmed.
Qed.

Lemma spoken_app a b : spoken (a ++ b) = spoken a ++ spoken b.
Proof.
  induction a as [|[|u] a IH]; simpl; [reflexivity|exact IH|f_equal; exact IH].
Qed.

Lemma built_well_formed id t r vs : speakable t -> well_formed (built id t r vs).
Proof. intros H. repeat split; apply H. Qed.

Lemma page_ok_frame w w' :
  timers w' = timers w -> synth w' = synth w -> page_ok w -> page_ok w'.
Proof. unfold page_ok. intros -> ->. auto. Qed.

Lemma page_ok_cancel w w' :
  timers w' = timers w -> synth w' = cancel (synth w) -> page_ok w -> page_ok w'.
Proof.
  unfold page_ok. intros -> -> (Ht & Hr & Hq). simpl.
  rewrite spoken_app, app_nil_r. auto.
Qed.

Lemma page_ok_submit w w' u :
  timers w' = timers w -> synth w' = submit u (synth w) -> well_formed u ->
  page_ok w -> page_ok w'.
Proof.
  unfold page_ok. intros -> -> Hu (Ht & Hr & Hq). simpl.
  rewrite spoken_app. simpl. split; [exact Ht|].
  split; apply Forall_app; auto.
Qed.

Lemma page_ok_arm w w' new :
  timers w' = timers w ++ new ->
  synth w' = synth w \/ synth w' = cancel (synth w) ->
  Forall (fun t => speakable (t_text t)) new ->
  page_ok w -> page_ok w'.
Proof.
  unfold page_ok. intros -> Hs Hnew (Ht & Hr & Hq).
  split; [apply Forall_app; auto|].
  destruct Hs as [-> | ->]; [auto|]. simpl.
  rewrite spoken_app, app_nil_r. auto.
Qed.

Lemma page_ok_uncaught w l : page_ok w -> page_ok (with_uncaught l w).
Proof. apply page_ok_frame; reflexivity. Qed.

Lemma keeps_stopSpeech : keeps_page_ok Tts.stopSpeech.
Proof.
  intros w H. unfold run_task. rewrite stopSpeech_run.
  apply (page_ok_arm w _ []); [simpl; rewrite app_nil_r; reflexivity| |constructor|exact H].
  simpl. destruct (speaking (synth w)); auto.
Qed.

Lemma keeps_tts_speak text rate : keeps_page_ok (Tts.speakJapanese text rate).
Proof.
  intros w H. unfold run_task. rewrite tts_speak_run.
  destruct (eqb (cleanJapaneseText text) []) eqn:Ec.
  - eapply page_ok_frame; [| |exact H]; reflexivity.
  - assert (Hsp : speakable (cleanJapaneseText text)).
    { apply clean_speakable. intros E. rewrite E in Ec. discriminate. }
    eapply (page_ok_arm w); [reflexivity| | |exact H].
    + simpl. destruct (speaking (synth w)); auto.
    + constructor; [exact Hsp|constructor].
Qed.

Lemma keeps_part000_speak text rate : keeps_page_ok (Part000.speakJapanese text rate).
Proof.
  intros w H. unfold run_task. rewrite part000_speak_run.
  destruct (eqb (cleanJapaneseText text) []) eqn:Ec; [exact H|].
  assert (Hsp : speakable (cleanJapaneseText text)).
  { apply clean_speakable. intros E. rewrite E in Ec. discriminate. }
  eapply (page_ok_arm w); [reflexivity| | |exact H].
  - simpl. destruct (speaking (synth w) || pending (synth w)); auto.
  - constructor; [exact Hsp|constructor].
Qed.

Lemma keeps_tts_timeout t r : speakable t -> keeps_page_ok (Tts.timeout_callback t r).
Proof.
  intros Hsp w H. unfold run_task. rewrite tts_timeout_run. cbv zeta.
  destruct (accepting (synth w)).
  - eapply page_ok_submit; [| |apply built_well_formed, Hsp|exact H]; reflexivity.
  - eapply page_ok_frame; [| |exact H]; reflexivity.
Qed.

Lemma keeps_part000_timeout t r :
  speakable t -> keeps_page_ok (Part000.timeout_callback t r).
Proof.
  intros Hsp w H. unfold run_task. rewrite part000_timeout_run. cbv zeta.
  destruct (accepting (synth w)).
  - eapply page_ok_submit; [| |apply built_well_formed, Hsp|exact H]; reflexivity.
  - apply page_ok_uncaught. eapply page_ok_frame; [| |exact H]; reflexivity.
Qed.

Lemma tts_script_ok : script_ok tts_js.
Proof.
  unfold script_ok. repeat match goal with |- _ /\ _ => split end; simpl.
  - apply keeps_tts_speak.
  - apply keeps_stopSpeech.
  - intros w H. exact H.
  - apply keeps_tts_timeout.
  - intros t w H. unfold run_task. rewrite tts_onstart_run.
    eapply page_ok_frame; [| |exact H]; reflexivity.
  - intros w H. eapply page_ok_frame; [| |exact H]; destruct w; reflexivity.
  - intros kind w H. eapply page_ok_frame; [| |exact H];
      destruct w; unfold run_task; run_js;
      destruct (negb _ && negb _); reflexivity.
Qed.

Lemma part000_script_ok : script_ok part_000.
Proof.
  unfold script_ok. repeat match goal with |- _ /\ _ => split end; simpl.
  - apply keeps_part000_speak.
  - apply keeps_stopSpeech.
  - intros w H. exact H.
  - apply keeps_part000_timeout.
  - intros t w H. unfold run_task. rewrite part000_onstart_run.
    eapply page_ok_frame; [| |exact H]; reflexivity.
  - intros w H. eapply page_ok_frame; [| |exact H]; destruct w; reflexivity.
  - intros kind w H. eapply page_ok_frame; [| |exact H];
      destruct w; unfold run_task; run_js;
      destruct (negb _); reflexivity.
Qed.

Lemma fire_all_keeps sc ts :
  script_ok sc -> Forall (fun t => speakable (t_text t)) ts ->
  forall w, page_ok w -> page_ok (fold_left (fire sc) ts w).
Proof.
  intros Hsc Hts. induction Hts as [|t ts Ht Hts IH]; intros w H; [exact H|].
  simpl. apply IH. unfold fire.
  destruct Hsc as (_ & _ & _ & Hto & _). apply (Hto _ _ Ht), H.
Qed.

Lemma forall_filter {A} (P : A -> Prop) f l : Forall P l -> Forall P (filter f l).
Proof.
  rewrite !Forall_forall. intros H x Hx. apply filter_In in Hx as [Hx _]. auto.
Qed.

Lemma step_keeps sc w e : script_ok sc -> page_ok w -> page_ok (step sc w e).
Proof.
  intros Hsc H. pose proof Hsc as (Hsp & Hst & Hrd & Hto & Hon & Hend & Herr).
  destruct e as [text rate| | |ms|id|id|id kind]; simpl.
  - apply Hsp, H.
  - apply Hst, H.
  - apply Hrd, H.
  - apply fire_all_keeps; [exact Hsc|apply forall_filter, H|].
    destruct H as (Ht & Hr & Hq). split; [apply forall_filter, Ht|split; assumption].
  - destruct (submitted _ id) as [u|]; [|exact H].
    destruct (heads id (synth w) && negb (speaking (synth w))); [|exact H].
    assert (H' : page_ok (with_synth (begin (synth w)) w)) by exact H.
    destruct (u_onstart u); [apply Hon, H'|exact H'].
  - destruct (submitted _ id) as [u|]; [|exact H].
    destruct (heads id (synth w) && speaking (synth w)); [|exact H].
    assert (H' : page_ok (with_synth (resolve id (synth w)) w)).
    { destruct H as (Ht & Hr & Hq). split; [exact Ht|]. split; [exact Hr|].
      apply forall_filter, Hq. }
    destruct (u_onend u); [apply Hend, H'|exact H'].
  - destruct (submitted _ id) as [u|]; [|exact H].
    assert (H' : page_ok (with_synth (resolve id (synth w)) w)).
    { destruct H as (Ht & Hr & Hq). split; [exact Ht|]. split; [exact Hr|].
      apply forall_filter, Hq. }
    destruct (u_onerror u); [apply Herr, H'|exact H'].
Qed.

Lemma run_keeps sc es : script_ok sc -> forall w, page_ok w -> page_ok (run sc w es).
Proof.
  intros Hsc. induction es as [|e es IH]; intros w H; [exact H|].
  apply (IH (step sc w e)), step_keeps; assumption.
Qed.

Lemma in_spoken u rs : In (Speak u) rs -> In u (spoken rs).
Proof.
  induction rs as [|[|v] rs IH]; simpl; intros H; [contradiction| |].
  - destruct H as [H|H]; [discriminate|auto].
  - destruct H as [H|H]; [injection H as ->; auto|auto].
Qed.

(** X8: whatever the host page does and whatever the capability
    notifies, every utterance either file ever submits, and every
    utterance outstanding, carries a text that is not empty, is trimmed
    and holds no parenthesised group, the language [ja-JP], pitch 1,
    volume 1 and the three handlers. *)
Theorem only_clean_text_is_submitted : forall sc vs ok es u,
  sc = tts_js \/ sc = part_000 ->
  In (Speak u) (received (synth (run sc (loaded vs ok) es))) \/
  In u (outstanding (run sc (loaded vs ok) es)) ->
  well_formed u.
Proof.
  intros sc vs ok es u Hsc Hin.
  assert (Hok : script_ok sc)
    by (destruct Hsc as [-> | ->]; [apply tts_script_ok|apply part000_script_ok]).
  assert (H0 : page_ok (loaded vs ok)) by (repeat split; constructor).
  destruct (run_keeps sc es Hok _ H0) as (_ & Hr & Hq).
  rewrite Forall_forall in Hr, Hq.
  destruct Hin as [Hin|Hin]; [apply Hr, in_spoken, Hin|apply Hq, Hin].
Qed.

Lemma only_clean_text_is_submitted_witness :
  let es := [Call_speakJapanese (Some (js " 渇く（かわく） ")) None; Elapse 50] in
  let u := built 0 (js "渇く") (85 # 100)%Q [] in
  In u (outstanding (run tts_js (loaded [] true) es)) /\ well_formed u.
Proof.
  assert (Hin : In (built 0 (js "渇く") (85 # 100)%Q [])
    (outstanding (run tts_js (loaded [] true)
       [Call_speakJapanese (Some (js " 渇く（かわく） ")) None; Elapse 50])))
    by (left; reflexivity).
  split; [exact Hin|].
  exact (only_clean_text_is_submitted tts_js [] true _ _ (or_introl eq_refl)
           (or_intror Hin)).
Defined.

(** ** Runs of the page *)

Lemma tts_call_step w t r :
  step tts_js w (Call_speakJapanese t r) =
  if eqb (cleanJapaneseText t) [] then
    with_console (console w ++ [empty_text_warning]) w
  else
    {| isSpeaking := false; currentUtterance := None;
       synth := if speaking (synth w) then cancel (synth w) else synth w;
       timers := timers w ++
         [{| due := clock w + Tts.delay; t_text := cleanJapaneseText t;
             t_rate := rate_or_default r |}];
       clock := clock w; console := console w;
       next_id := next_id w; uncaught := uncaught w |}.
Proof.
  cbn [step tts_js s_speakJapanese]. unfold run_task. rewrite tts_speak_run.
  destruct (eqb _ _); reflexivity.
Qed.

Lemma part000_call_step w t r :
  step part_000 w (Call_speakJapanese t r) =
  if eqb (cleanJapaneseText t) [] then w
  else
    {| isSpeaking := isSpeaking w; currentUtterance := currentUtterance w;
       synth := if speaking (synth w) || pending (synth w)
                then cancel (synth w) else synth w;
       timers := timers w ++
         [{| due := clock w + Part000.delay; t_text := cleanJapaneseText t;
             t_rate := rate_or_default r |}];
       clock := clock w; console := console w;
       next_id := next_id w; uncaught := uncaught w |}.
Proof.
  cbn [step part_000 s_speakJapanese]. unfold run_task. rewrite part000_speak_run.
  destruct (eqb _ _); reflexivity.
Qed.


(** When the only timer comes due, it fires. *)
Lemma elapse_single sc w ms t :
  timers w = [t] -> due t <= clock w + ms ->
  step sc w (Elapse ms) = fire sc (with_timers [] (with_clock (clock w + ms) w)) t.
Proof.
  intros Ht Hd. cbn [step]. rewrite Ht. cbn [filter].
  apply Nat.leb_le in Hd. rewrite Hd. reflexivity.
Qed.

Lemma tts_fire w t :
  accepting (synth w) = true ->
  fire tts_js w t =
  let u := built (next_id w) (t_text t) (t_rate t) (voices (synth w)) in
  {| isSpeaking := true; currentUtterance := Some u;
     synth := submit u (synth w);
     timers := timers w; clock := clock w; console := console w;
     next_id := S (next_id w); uncaught := uncaught w |}.
Proof.
  intros H. unfold fire, run_task. cbn [s_timeout tts_js].
  rewrite tts_timeout_run. cbv zeta. rewrite H. reflexivity.
Qed.

Lemma part000_fire w t :
  accepting (synth w) = true ->
  fire part_000 w t =
  let u := built (next_id w) (t_text t) (t_rate t) (voices (synth w)) in
  {| isSpeaking := isSpeaking w; currentUtterance := Some u;
     synth := submit u (synth w);
     timers := timers w; clock := clock w; console := console w;
     next_id := S (next_id w); uncaught := uncaught w |}.
Proof.
  intros H. unfold fire, run_task. cbn [s_timeout part_000].
  rewrite part000_timeout_run. cbv zeta. rewrite H. reflexivity.
Qed.



Lemma tts_onend_run w :
  Tts.onend w =
  (Ok tt,
   {| isSpeaking := false; currentUtterance := None; synth := synth w;
      timers := timers w; clock := clock w;
      console := console w ++
        [{| l_level := Log; l_msg := js "✓ Speech ended"; l_arg := None |}];
      next_id := next_id w; uncaught := uncaught w |}).
Proof. destruct w; reflexivity. Qed.

Lemma part000_onend_run w :
  Part000.onend w =
  (Ok tt,
   {| isSpeaking := false; currentUtterance := None; synth := synth w;
      timers := timers w; clock := clock w; console := console w;
      next_id := next_id w; uncaught := uncaught w |}).
Proof. destruct w; reflexivity. Qed.

Lemma tts_onerror_run kind w :
  Tts.onerror kind w =
  (Ok tt,
   {| isSpeaking := false; currentUtterance := None; synth := synth w;
      timers := timers w; clock := clock w;
      console := console w ++
        (if eqb kind (js "interrupted") || eqb kind (js "cancelled") then []
         else [{| l_level := Err; l_msg := js "❌ Speech error:"; l_arg := Some kind |}]);
      next_id := next_id w; uncaught := uncaught w |}).
Proof.
  destruct w as [f cu s ts ck co nx un]. run_js.
  destruct (eqb kind (js "interrupted")); simpl;
    [|destruct (eqb kind (js "cancelled"))]; simpl; rewrite ?app_nil_r; reflexivity.
Qed.

Lemma part000_onerror_run kind w :
  Part000.onerror kind w =
  (Ok tt,
   {| isSpeaking := false; currentUtterance := None; synth := synth w;
      timers := timers w; clock := clock w;
      console := console w ++
        (if eqb kind (js "interrupted") then []
         else [{| l_level := Err; l_msg := js "TTS error:"; l_arg := Some kind |}]);
      next_id := next_id w; uncaught := uncaught w |}).
Proof.
  destruct w as [f cu s ts ck co nx un]. run_js.
  destruct (eqb kind (js "interrupted")); simpl; rewrite ?app_nil_r; reflexivity.
Qed.

Lemma notify_start_step sc w id u captured :
  submitted (received (synth w)) id = Some u ->
  heads id (synth w) = true -> speaking (synth w) = false ->
  u_onstart u = Some captured ->
  step sc w (Notify_start id) =
  run_task (s_onstart sc captured) (with_synth (begin (synth w)) w).
Proof. intros H1 H2 H3 H4. cbn [step]. rewrite H1, H2, H3, H4. reflexivity. Qed.

Lemma notify_end_step sc w id u :
  submitted (received (synth w)) id = Some u ->
  heads id (synth w) = true -> speaking (synth w) = true ->
  u_onend u = true ->
  step sc w (Notify_end id) =
  run_task (s_onend sc) (with_synth (resolve id (synth w)) w).
Proof. intros H1 H2 H3 H4. cbn [step]. rewrite H1, H2, H3, H4. reflexivity. Qed.

Lemma notify_error_step sc w id u kind :
  submitted (received (synth w)) id = Some u ->
  u_onerror u = true ->
  step sc w (Notify_error id kind) =
  run_task (s_onerror sc kind) (with_synth (resolve id (synth w)) w).
Proof. intros H1 H2. cbn [step]. rewrite H1, H2. reflexivity. Qed.

(** The handlers of an utterance whose identity is new are found once
    it is submitted, whatever is requested afterwards. *)
Lemma submitted_fresh rs u more :
  submitted rs (u_id u) = None ->
  submitted (rs ++ Speak u :: more) (u_id u) = Some u.
Proof.
  induction rs as [|[|v] rs IH]; simpl; intros H.
  - rewrite Nat.eqb_refl. reflexivity.
  - auto.
  - destruct (Nat.eqb (u_id v) (u_id u)); [discriminate|auto].
Qed.

(** X10: one utterance from call to end, on an idle page whose
    capability accepts the submission.  After the call, the delay and
    the start notification the utterance is the stored one, it is the
    only one outstanding and [isTTSSpeaking] answers true; after its end
    notification, or an error notification of any kind, the page is idle
    again; and the end path writes no diagnostic. *)
Theorem speak_start_end_returns_to_idle :
  (forall w t r,
     idle w -> accepting (synth w) = true ->
     submitted (received (synth w)) (next_id w) = None ->
     cleanJapaneseText t <> [] ->
     let id := next_id w in
     let u := built id (cleanJapaneseText t) (rate_or_default r) (voices (synth w)) in
     let started :=
       run tts_js w [Call_speakJapanese t r; Elapse Tts.delay; Notify_start id] in
     (isSpeaking started = true /\ speaking (synth started) = true /\
      currentUtterance started = Some u /\ outstanding started = [u]) /\
     (idle (step tts_js started (Notify_end id)) /\
      diagnostics (console (step tts_js started (Notify_end id))) =
        diagnostics (console w)) /\
     (forall kind, idle (step tts_js started (Notify_error id kind)))) /\
  (forall w t r,
     idle w -> accepting (synth w) = true ->
     submitted (received (synth w)) (next_id w) = None ->
     cleanJapaneseText t <> [] ->
     let id := next_id w in
     let u := built id (cleanJapaneseText t) (rate_or_default r) (voices (synth w)) in
     let started :=
       run part_000 w [Call_speakJapanese t r; Elapse Part000.delay; Notify_start id] in
     (isSpeaking started = true /\ speaking (synth started) = true /\
      currentUtterance started = Some u /\ outstanding started = [u]) /\
     (idle (step part_000 started (Notify_end id)) /\
      diagnostics (console (step part_000 started (Notify_end id))) =
        diagnostics (console w)) /\
     (forall kind, idle (step part_000 started (Notify_error id kind)))).
Proof.
  split.
  - intros w t r (Hf & Hcu & Hts & Hq & Hsp) Ha Hfresh Hc. cbv zeta.
    apply eqb_false_of in Hc.
    destruct w as [f cu s ts ck co nx un]. destruct s as [q sp vs acc rs].
    fields. subst f cu ts q sp acc.
    set (u := built nx (cleanJapaneseText t) (rate_or_default r) vs).
    assert (E : run tts_js
        {| isSpeaking := false; currentUtterance := None;
           synth := {| queue := []; speaking := false; voices := vs;
                       accepting := true; received := rs |};
           timers := []; clock := ck; console := co; next_id := nx;
           uncaught := un |}
        [Call_speakJapanese t r; Elapse Tts.delay; Notify_start nx] =
      {| isSpeaking := true; currentUtterance := Some u;
         synth := {| queue := [u]; speaking := true; voices := vs;
                     accepting := true; received := rs ++ [Speak u] |};
         timers := []; clock := ck + Tts.delay;
         console := co ++
           [{| l_level := Log; l_msg := js "🔊 Speaking:";
               l_arg := Some (substring0 50 (cleanJapaneseText t)) |}];
         next_id := S nx; uncaught := un |}).
    { unfold run. cbn [fold_left]. rewrite tts_call_step, Hc. fields.
      erewrite elapse_single; [|reflexivity|fields; lia].
      rewrite tts_fire by reflexivity. cbv zeta. fields. fold u.
      erewrite notify_start_step;
        [|apply (submitted_fresh rs u []), Hfresh
         |cbn; apply Nat.eqb_refl|reflexivity|reflexivity].
      cbn [s_onstart tts_js].
      rewrite (run_task_ok _ _ _ _ (tts_onstart_run _ _)). reflexivity. }
    rewrite E. clear E.
    split; [repeat split|]. split.
    + erewrite notify_end_step;
        [|apply (submitted_fresh rs u []), Hfresh
         |cbn; apply Nat.eqb_refl|reflexivity|reflexivity].
      cbn [s_onend tts_js].
      rewrite (run_task_ok _ _ _ _ (tts_onend_run _)).
      unfold idle, diagnostics, resolve, heads. fields. cbn [filter u_id u built].
      rewrite Nat.eqb_refl. cbn [negb].
      rewrite !filter_app. cbn. rewrite !app_nil_r. repeat split.
    + intros kind. erewrite notify_error_step;
        [|apply (submitted_fresh rs u []), Hfresh|reflexivity].
      cbn [s_onerror tts_js].
      rewrite (run_task_ok _ _ _ _ (tts_onerror_run _ _)).
      unfold idle, resolve, heads. fields. cbn [filter u_id u built].
      rewrite Nat.eqb_refl. repeat split.
  - intros w t r (Hf & Hcu & Hts & Hq & Hsp) Ha Hfresh Hc. cbv zeta.
    apply eqb_false_of in Hc.
    destruct w as [f cu s ts ck co nx un]. destruct s as [q sp vs acc rs].
    fields. subst f cu ts q sp acc.
    set (u := built nx (cleanJapaneseText t) (rate_or_default r) vs).
    assert (E : run part_000
        {| isSpeaking := false; currentUtterance := None;
           synth := {| queue := []; speaking := false; voices := vs;
                       accepting := true; received := rs |};
           timers := []; clock := ck; console := co; next_id := nx;
           uncaught := un |}
        [Call_speakJapanese t r; Elapse Part000.delay; Notify_start nx] =
      {| isSpeaking := true; currentUtterance := Some u;
         synth := {| queue := [u]; speaking := true; voices := vs;
                     accepting := true; received := rs ++ [Speak u] |};
         timers := []; clock := ck + Part000.delay;
         console := co ++
           [{| l_level := Log; l_msg := js "🔊 Speaking:";
               l_arg := Some (cleanJapaneseText t) |}];
         next_id := S nx; uncaught := un |}).
    { unfold run. cbn [fold_left]. rewrite part000_call_step, Hc. fields.
      erewrite elapse_single; [|reflexivity|fields; lia].
      rewrite part000_fire by reflexivity. cbv zeta. fields. fold u.
      erewrite notify_start_step;
        [|apply (submitted_fresh rs u []), Hfresh
         |cbn; apply Nat.eqb_refl|reflexivity|reflexivity].
      cbn [s_onstart part_000].
      rewrite (run_task_ok _ _ _ _ (part000_onstart_run _ _)). reflexivity. }
    rewrite E. clear E.
    split; [repeat split|]. split.
    + erewrite notify_end_step;
        [|apply (submitted_fresh rs u []), Hfresh
         |cbn; apply Nat.eqb_refl|reflexivity|reflexivity].
      cbn [s_onend part_000].
      rewrite (run_task_ok _ _ _ _ (part000_onend_run _)).
      unfold idle, diagnostics, resolve, heads. fields. cbn [filter u_id u built].
      rewrite Nat.eqb_refl. cbn [negb].
      rewrite !filter_app. cbn. rewrite !app_nil_r. repeat split.
    + intros kind. erewrite notify_error_step;
        [|apply (submitted_fresh rs u []), Hfresh|reflexivity].
      cbn [s_onerror part_000].
      rewrite (run_task_ok _ _ _ _ (part000_onerror_run _ _)).
      unfold idle, resolve, heads. fields. cbn [filter u_id u built].
      rewrite Nat.eqb_refl. repeat split.
Qed.


Lemma speak_start_end_returns_to_idle_witness :
  let w := loaded [] true in
  let t := Some (js "水") in
  idle w /\ accepting (synth w) = true /\
  submitted (received (synth w)) (next_id w) = None /\
  cleanJapaneseText t <> [] /\
  idle (step part_000
          (run part_000 w
             [Call_speakJapanese t None; Elapse Part000.delay;
              Notify_start (next_id w)])
          (Notify_end (next_id w))).
Proof.
  intros w t.
  assert (Hc : cleanJapaneseText t <> []) by discriminate.
  assert (Hi : idle w) by (repeat split).
  split; [exact Hi|]. split; [reflexivity|]. split; [reflexivity|].
  split; [exact Hc|].
  exact (proj1 (proj1 (proj2 (proj2 speak_start_end_returns_to_idle
           w t None Hi eq_refl eq_refl Hc)))).
Defined.


